(** * Resume screening and ranking: a shallow embedding of [app.py]

    The script has two helper functions, [extract_text_from_pdf] and
    [rank_resumes], and a main processing block that drives them from the
    two inputs of the page (the job description and the uploaded files).

    Conventions of the embedding.
    - A Python [str] is a [string]; [None] is [None] of an [option].
    - A raised Python [Exception] is the [Raise] branch of [result].
    - Calls into Streamlit that the user can observe ([st.error],
      [st.warning], [st.dataframe], ...) are events appended to a log; the
      static page chrome (CSS, title, footer) is left out.
    - PyPDF2 is abstract: [PdfReader] and [extract_text] are fields of the
      interface [PdfLibrary].
    - scikit-learn's [TfidfVectorizer] and [cosine_similarity] are modelled
      after their documented default behaviour.  The scores of the script
      are numpy [float64] values.  [rank_resumes] computes them over the
      real numbers, for the properties that rounding does not touch
      (which exception is raised, how many scores there are and in which
      order, signs, exact zeros); [rank_resumes64] computes them in
      binary64, on the inputs where the logarithm is exact.  The analyzer
      that turns a text into tokens is the interface [Analyzer], with an
      ASCII instance of the default one given for concrete runs.
    - pandas' [sort_values] is the interface [Sorter].  [numpy_sorter] is
      the sort the script runs, the default [kind="quicksort"]: numpy's
      introsort on positions (quicksort, insertion sort, heap sort).
      [SortContract] says what pandas documents of every kind, and
      [stable_sorter] is an insertion sort, which meets it.
    - [st.cache_data] is not modelled: every call of
      [extract_text_from_pdf] runs its body and logs its [PdfReaderCall].
      The script may answer a repeated upload from the cache, without that
      call; the value returned is the same.  Statements below that count
      reader calls are about the calls of the loop, not about how often
      PyPDF2 runs. *)

From Stdlib Require Import Floats.
From Stdlib Require Import String Ascii.
From Stdlib Require Import List Bool Arith Lia.
From Stdlib Require Import Permutation Sorted Orders Mergesort.
From Stdlib Require Import Reals Lra.
From Stdlib Require Import FunctionalExtensionality.
Import ListNotations.

Local Open Scope string_scope.
Local Open Scope list_scope.

(** ** Exceptions and results *)

Inductive exn : Type :=
| ValueError (msg : string)
| PdfError (msg : string).

(** [str(e)], as interpolated by the f-string of the handler. *)
Definition exn_str (e : exn) : string :=
  match e with
  | ValueError msg => msg
  | PdfError msg => msg
  end.

Inductive result (A : Type) : Type :=
| Ok (a : A)
| Raise (e : exn).

Arguments Ok {A} a.
Arguments Raise {A} e.

Definition result_bind {A B : Type} (r : result A) (k : A -> result B)
  : result B :=
  match r with
  | Ok a => k a
  | Raise e => Raise e
  end.

Definition result_map {A B : Type} (f : A -> B) (r : result A) : result B :=
  result_bind r (fun a => Ok (f a)).

(** ** Python truthiness *)

Definition str_truthy (s : string) : bool :=
  match s with
  | EmptyString => false
  | String _ _ => true
  end.

Definition list_truthy {A : Type} (l : list A) : bool :=
  match l with
  | [] => false
  | _ :: _ => true
  end.

(** [if text:] where [text] is a [str] or [None]. *)
Definition text_truthy (text : option string) : bool :=
  match text with
  | Some s => str_truthy s
  | None => false
  end.

(** ** User-visible messages of the script *)

Definition msg_reading_pdf : string := "Error reading PDF: ".
Definition msg_no_resumes : string :=
  "No resumes were successfully processed. Please check the PDF files.".
Definition msg_batch_failed : string :=
  "An error occurred during PDF processing.  Please check the file(s).".
Definition msg_need_job_description : string :=
  "Please enter a job description to rank the resumes.".
Definition msg_need_resumes : string := "Please upload resumes to rank.".
Definition msg_ranking_results : string :=
  "<p class='medium-font'>Ranking Results</p>".

(** A row of the results table: the [Resume] and [Score] columns. *)
Definition row : Type := (string * R)%type.
Definition Resume (r : row) : string := fst r.
Definition Score (r : row) : R := snd r.

Section Effects.

Variable File : Type.

(** What one run of the script does that can be seen from outside. *)
Inductive event : Type :=
| PdfReaderCall (file : File)
| StError (msg : string)
| StWarning (msg : string)
| RankCall (job_description : string) (resumes : list string)
| StMarkdown (body : string)
| StDataframe (results : list (nat * row))
| StDownloadButton (csv_rows : list row) (file_name : string).

(** A computation appends events and either returns or raises. *)
Definition M (A : Type) : Type := (list event * result A)%type.

Definition ret {A : Type} (a : A) : M A := ([], Ok a).

Definition bind {A B : Type} (m : M A) (k : A -> M B) : M B :=
  match m with
  | (log, Ok a) => let (log', r) := k a in (log ++ log', r)
  | (log, Raise e) => (log, Raise e)
  end.

Definition emit (ev : event) : M unit := ([ev], Ok tt).

Definition lift {A : Type} (r : result A) : M A := ([], r).

(** [try: body except Exception as e: handler e]. *)
Definition try_except {A : Type} (body : M A) (handler : exn -> M A) : M A :=
  match body with
  | (log, Ok a) => (log, Ok a)
  | (log, Raise e) => let (log', r) := handler e in (log ++ log', r)
  end.

Definition events {A : Type} (m : M A) : list event := fst m.
Definition outcome {A : Type} (m : M A) : result A := snd m.

End Effects.

Arguments PdfReaderCall {File} file.
Arguments StError {File} msg.
Arguments StWarning {File} msg.
Arguments RankCall {File} job_description resumes.
Arguments StMarkdown {File} body.
Arguments StDataframe {File} results.
Arguments StDownloadButton {File} csv_rows file_name.
Arguments ret {File A} a.
Arguments bind {File A B} m k.
Arguments emit {File} ev.
Arguments lift {File A} r.
Arguments try_except {File A} body handler.
Arguments events {File A} m.
Arguments outcome {File A} m.

Declare Scope app_scope.
Delimit Scope app_scope with app.
Notation "x <- m ;; k" := (bind m (fun x => k))
  (at level 61, m at next level, right associativity) : app_scope.
Notation "m ;;; k" := (bind m (fun _ => k))
  (at level 61, right associativity) : app_scope.
Local Open Scope app_scope.

(** ** Text extraction (lines 11-22) *)

(** What the script uses of PyPDF2 and of an uploaded file. *)
Class PdfLibrary : Type := {
  File : Type;
  Page : Type;
  (** [file.name] *)
  name : File -> string;
  (** [PdfReader(file).pages]: the page collection, or the exception raised
      while the document is parsed. *)
  PdfReader : File -> result (list Page);
  (** [page.extract_text()] *)
  extract_text : Page -> result string
}.

Section TextExtractor.

Context {pdflib : PdfLibrary}.

(** The [for page in pdf.pages: text += page.extract_text()] loop. *)
Fixpoint extract_pages (pages : list Page) (text : string)
  : result string :=
  match pages with
  | [] => Ok text
  | page :: rest =>
      result_bind (extract_text page)
                  (fun t => extract_pages rest (text ++ t))
  end.

Definition extract_text_from_pdf (file : File) : M File (option string) :=
  try_except
    (emit (PdfReaderCall file) ;;;
     pages <- lift (PdfReader file) ;;
     text <- lift (extract_pages pages "") ;;
     ret (Some text))
    (fun e =>
       emit (StError (msg_reading_pdf ++ exn_str e)) ;;;
       ret None).

End TextExtractor.

(** ** Similarity ranking (lines 25-36) *)

(** Vocabulary terms are kept in sorted order, as [CountVectorizer] does. *)
Module StringOrder <: TotalLeBool.
Definition t : Type := string.
Definition leb : t -> t -> bool := String.leb.
Definition leb_total
  : forall a1 a2, leb a1 a2 = true \/ leb a2 a1 = true := String.leb_total.
End StringOrder.

Module StringSort := Sort StringOrder.

(** Messages of the exceptions raised by the libraries (that of
    [msg_no_samples] is shortened: the original also gives the shape). *)
Definition msg_empty_vocabulary : string :=
  "empty vocabulary; perhaps the documents only contain stop words".
Definition msg_no_samples : string :=
  "Found array with 0 sample(s) while a minimum of 1 is required.".
Definition msg_incompatible : string :=
  "Incompatible dimension for X and Y matrices".
Definition msg_lengths : string := "All arrays must be of the same length".

Section Vectors.

Local Open Scope R_scope.

Definition vector : Type := list R.
Definition matrix : Type := list vector.

Definition sum (v : vector) : R := fold_right Rplus 0 v.

Definition dot (x y : vector) : R :=
  sum (map (fun p => fst p * snd p) (combine x y)).

Definition l2_norm (v : vector) : R := sqrt (dot v v).

(** [sklearn.preprocessing.normalize(norm="l2")] on one row: a row of
    norm zero is divided by one, that is, left as it is. *)
Definition normalize (v : vector) : vector :=
  let n := l2_norm v in
  let scale := if Req_dec_T n 0 then 1 else n in
  map (fun x => x / scale) v.

Definition width_ok (w : nat) (X : matrix) : bool :=
  forallb (fun v => Nat.eqb (List.length v) w) X.

(** [sklearn.metrics.pairwise.cosine_similarity(X, Y)]: both arguments
    are checked (at least one row each, rows of one width), both are
    normalised, and the result holds the dot product of every row of
    [X] with every row of [Y]. *)
Definition cosine_similarity (X Y : matrix) : result matrix :=
  match X, Y with
  | [], _ | _, [] => Raise (ValueError msg_no_samples)
  | x :: _, _ =>
      if width_ok (List.length x) X && width_ok (List.length x) Y then
        Ok (map (fun x => map (fun y => dot (normalize x) (normalize y)) Y)
                X)
      else Raise (ValueError msg_incompatible)
  end.

(** [ndarray.flatten()] of a two-dimensional array. *)
Definition flatten (K : matrix) : vector := List.concat K.

End Vectors.

(** The analyzer of the vectorizer: preprocessing and tokenisation of one
    document. *)
Class Analyzer : Type := {
  analyze : string -> list string
}.

Section Ranker.

Context {analyzer : Analyzer}.

Local Open Scope R_scope.

(** Raw count of term [t] in document [doc]. *)
Definition term_count (t doc : string) : nat :=
  count_occ string_dec (analyze doc) t.

(** The distinct terms of all documents, sorted. *)
Definition vocabulary (documents : list string) : list string :=
  StringSort.sort (nodup string_dec (flat_map analyze documents)).

(** Number of documents in which [t] occurs. *)
Definition document_frequency (documents : list string) (t : string)
  : nat :=
  List.length
    (filter (fun doc => Nat.ltb 0 (term_count t doc)) documents).

(** Smoothed inverse document frequency,
    [ln((1 + n) / (1 + df)) + 1]. *)
Definition idf (documents : list string) (t : string) : R :=
  ln ((1 + INR (List.length documents))
      / (1 + INR (document_frequency documents t))) + 1.

Definition tfidf_row (documents vocab : list string) (doc : string)
  : vector :=
  map (fun t => INR (term_count t doc) * idf documents t) vocab.

(** [TfidfVectorizer().fit_transform(documents).toarray()]: one
    L2-normalised row per document, one column per vocabulary term. *)
Definition fit_transform (documents : list string) : result matrix :=
  match vocabulary documents with
  | [] => Raise (ValueError msg_empty_vocabulary)
  | vocab =>
      Ok (map (fun doc => normalize (tfidf_row documents vocab doc))
              documents)
  end.

(** Lines 26-36.  [vectors[0]] is [hd]: [documents] always holds the job
    description, so the matrix has a first row. *)
Definition rank_resumes (job_description : string) (resumes : list string)
  : result vector :=
  let documents := job_description :: resumes in
  result_bind (fit_transform documents) (fun vectors =>
  let job_description_vector := hd [] vectors in
  let resume_vectors := tl vectors in
  result_map flatten
    (cosine_similarity [job_description_vector] resume_vectors)).

End Ranker.

(** The default analyzer on ASCII text: lowercase, then every maximal run
    of two or more word characters (token pattern [\b\w\w+\b]). *)
Definition is_word_char (c : ascii) : bool :=
  let n := nat_of_ascii c in
  (((48 <=? n) && (n <=? 57)) || ((65 <=? n) && (n <=? 90))
   || ((97 <=? n) && (n <=? 122)) || (n =? 95))%nat.

Definition lower (c : ascii) : ascii :=
  let n := nat_of_ascii c in
  if ((65 <=? n) && (n <=? 90))%nat then ascii_of_nat (n + 32) else c.

Definition flush (run : string) : list string :=
  if (2 <=? String.length run)%nat then [run] else [].

Fixpoint scan (s run : string) : list string :=
  match s with
  | EmptyString => flush run
  | String c s' =>
      if is_word_char c then scan s' (run ++ String (lower c) EmptyString)
      else flush run ++ scan s' EmptyString
  end.

Definition default_analyzer : Analyzer := {|
  analyze := fun doc => scan doc EmptyString
|}.

(** ** Result assembly and the main processing block (lines 97-141) *)

(** [pd.DataFrame({"Resume": names, "Score": scores})]. *)
Definition DataFrame (names : list string) (scores : vector)
  : result (list row) :=
  if (List.length names =? List.length scores)%nat
  then Ok (combine names scores)
  else Raise (ValueError msg_lengths).

(** [reset_index(drop=True)] followed by [results.index += 1]. *)
Definition reset_index (rows : list row) : list (nat * row) :=
  combine (seq 1 (List.length rows)) rows.

(** [to_csv(index=False)]: the rows without the index column. *)
Definition to_csv (results : list (nat * row)) : list row :=
  map snd results.

(** [results.sort_values(by="Score", ascending=False)]. *)
Class Sorter : Type := {
  sort_values : list row -> list row
}.

Section Main.

Context {pdflib : PdfLibrary} {analyzer : Analyzer} {sorter : Sorter}.

(** Lines 103-110.  The loop carries [resumes] and [resume_names]; it
    returns them with the [valid_files] flag.  The test [if text:] holds
    exactly when [text] is a non-empty [str]; on [None] or the empty string
    the loop sets [valid_files = False] and breaks. *)
Fixpoint extraction_loop (files : list File)
         (resumes resume_names : list string)
  : M File (bool * (list string * list string)) :=
  match files with
  | [] => ret (true, (resumes, resume_names))
  | file :: rest =>
      text <- extract_text_from_pdf file ;;
      match text with
      | Some (String c s) =>
          extraction_loop rest (resumes ++ [String c s])
                          (resume_names ++ [name file])
      | _ => ret (false, (resumes, resume_names))
      end
  end.

(** Lines 114-133. *)
Definition rank_and_show (job_description : string)
           (resumes resume_names : list string) : M File unit :=
  emit (RankCall job_description resumes) ;;;
  scores <- lift (rank_resumes job_description resumes) ;;
  results <- lift (DataFrame resume_names scores) ;;
  let results := reset_index (sort_values results) in
  emit (StMarkdown msg_ranking_results) ;;;
  emit (StDataframe results) ;;;
  emit (StDownloadButton (to_csv results) "resume_ranking.csv").

(** Lines 112-137: what is reported once the loop has ended. *)
Definition report (job_description : string) (valid_files : bool)
           (resumes resume_names : list string) : M File unit :=
  if valid_files then
    if list_truthy resumes then
      rank_and_show job_description resumes resume_names
    else emit (StWarning msg_no_resumes)
  else emit (StError msg_batch_failed).

(** Lines 99-137: the body of the first branch. *)
Definition process (job_description : string) (uploaded_files : list File)
  : M File unit :=
  st <- extraction_loop uploaded_files [] [] ;;
  let '(valid_files, (resumes, resume_names)) := st in
  report job_description valid_files resumes resume_names.

(** Lines 98-141. *)
Definition main (job_description : string) (uploaded_files : list File)
  : M File unit :=
  if list_truthy uploaded_files && str_truthy job_description then
    process job_description uploaded_files
  else if list_truthy uploaded_files && negb (str_truthy job_description)
  then emit (StWarning msg_need_job_description)
  else if str_truthy job_description && negb (list_truthy uploaded_files)
  then emit (StWarning msg_need_resumes)
  else ret tt.

End Main.

(** ** Vocabulary of the statements *)

(** Cosine similarity of two rows, as [cosine_similarity] computes it. *)
Definition cosine (x y : vector) : R := dot (normalize x) (normalize y).

(** The divisor that [normalize] applies to a row. *)
Definition scale_of (v : vector) : R :=
  (if Req_dec_T (l2_norm v) 0 then 1 else l2_norm v)%R.

(** Rows that are never both non-zero in one column. *)
Definition disjoint_support (x y : vector) : Prop :=
  Forall2 (fun a b => a = 0%R \/ b = 0%R) x y.

(** Column [t] of the normalised row whose columns are [f] over [V]. *)
Definition normalized_column {A : Type} (V : list A) (f : A -> R) (t : A)
  : R :=
  (f t / scale_of (map f V))%R.

Section Scores.

Context {analyzer : Analyzer}.

(** The row that [fit_transform] holds for [doc]. *)
Definition document_vector (documents : list string) (doc : string)
  : vector :=
  normalize (tfidf_row documents (vocabulary documents) doc).

(** The score of resume text [resume] in a batch whose document set is
    [documents], the job description being [job_description]. *)
Definition resume_score (documents : list string)
           (job_description resume : string) : R :=
  cosine (document_vector documents job_description)
         (document_vector documents resume).

End Scores.

Section Table.

Context {analyzer : Analyzer} {sorter : Sorter}.

(** The table shown for resumes [resumes] named [resume_names]. *)
Definition results_table (job_description : string)
           (resumes resume_names : list string) : list (nat * row) :=
  reset_index
    (sort_values
       (combine resume_names
                (map (resume_score (job_description :: resumes)
                                   job_description) resumes))).

End Table.

(** [l] rearranged by the index list [p]: position [k] of the result holds
    element [nth k p] of [l]. *)
Definition permute {A : Type} (d : A) (p : list nat) (l : list A) : list A :=
  map (fun i => nth i l d) p.

(** Per-page texts put one after the other, without separators. *)
Definition join (texts : list string) : string :=
  fold_right String.append EmptyString texts.

Section Traces.

Context {File : Type}.

(** The files handed to [PdfReader], in call order. *)
Fixpoint reader_calls (log : list (event File)) : list File :=
  match log with
  | [] => []
  | PdfReaderCall file :: rest => file :: reader_calls rest
  | _ :: rest => reader_calls rest
  end.

Definition is_ranking_event (ev : event File) : bool :=
  match ev with
  | RankCall _ _ | StMarkdown _ | StDataframe _ | StDownloadButton _ _ =>
      true
  | _ => false
  end.

(** Invocations of the ranker and everything shown or exported from its
    result. *)
Definition ranking_events (log : list (event File)) : list (event File) :=
  filter is_ranking_event log.

Definition is_warning (ev : event File) : bool :=
  match ev with
  | StWarning _ => true
  | _ => false
  end.

Definition warnings (log : list (event File)) : list (event File) :=
  filter is_warning log.

End Traces.

Section Extracted.

Context {pdflib : PdfLibrary}.

(** The first page of [pages] whose extraction raises, raising [e]. *)
Definition first_failing_page (pages : list Page) (e : exn) : Prop :=
  exists before page after,
    pages = before ++ page :: after
    /\ Forall (fun p => exists t, extract_text p = Ok t) before
    /\ extract_text page = Raise e.

(** The value [extract_text_from_pdf] hands back for [file]. *)
Definition extracted (file : File) : option string :=
  match outcome (extract_text_from_pdf file) with
  | Ok text => text
  | Raise _ => None
  end.

(** [file] passes, or does not pass, the [if text:] test of the loop. *)
Definition usable (file : File) : Prop :=
  text_truthy (extracted file) = true.
Definition unusable (file : File) : Prop :=
  text_truthy (extracted file) = false.

(** The text a usable file contributes to [resumes]. *)
Definition text_of (file : File) : string :=
  match extracted file with
  | Some text => text
  | None => EmptyString
  end.

(** Everything the extraction of [files], one after the other, logs. *)
Definition extraction_log (files : list File) : list (event File) :=
  flat_map (fun file => events (extract_text_from_pdf file)) files.

End Extracted.

(** ** Ordering of the results table *)

Definition descending (a b : row) : Prop := (Score a >= Score b)%R.

(** What pandas promises of [sort_values(by="Score", ascending=False)] with
    the default sort kind: the rows are rearranged into descending score
    order.  The relative order of rows of equal score is not promised. *)
Class SortContract (sorter : Sorter) : Prop := {
  sort_values_permutation : forall rows, Permutation rows (sort_values rows);
  sort_values_descending :
    forall rows, StronglySorted descending (sort_values rows)
}.

Definition has_score (s : R) (r : row) : bool :=
  if Req_dec_T (Score r) s then true else false.

(** Rows of equal score keep the relative order they have in [uploaded]. *)
Definition ties_in_upload_order (uploaded displayed : list row) : Prop :=
  forall s, filter (has_score s) displayed = filter (has_score s) uploaded.

(** A sorting function that meets the contract: insertion of each row in
    front of the rows it ties with. *)
Fixpoint insert_before_ties (x : row) (l : list row) : list row :=
  match l with
  | [] => [x]
  | y :: l' =>
      if Rlt_dec (Score x) (Score y) then y :: insert_before_ties x l'
      else x :: l
  end.

Definition stable_sorter : Sorter := {|
  sort_values := fun rows => fold_right insert_before_ties [] rows
|}.

(** ** The sort pandas runs (line 118) *)

(** [sort_values(by="Score", ascending=False)] sorts on one column, so
    pandas calls its [nargsort] with the default [kind="quicksort"]:
    the scores are reversed, numpy's [argsort] orders them ascending, and
    the positions are mapped back and reversed.  numpy's quicksort on
    positions ([aquicksort] of npysort) is an introsort: parts of more
    than 17 positions are partitioned around the median of three, shorter
    parts are sorted by insertion, and a part reached below the depth
    limit is sorted by [aheapsort].  This is the generic code of numpy;
    a vectorised [argsort] that a build of numpy may run instead on some
    processors is not modelled.  Scores are never NaN here, so the NaN
    handling of both libraries is left out. *)

Section Insertion.

Context {A : Type}.
Variable less : A -> A -> bool.

(** One round of the insertion loop: [x] moves left past the elements it
    is below.  The sorted prefix is held last element first. *)
Fixpoint insert_sorted (x : A) (prefix_rev : list A) : list A :=
  match prefix_rev with
  | [] => [x]
  | y :: rest =>
      if less x y then y :: insert_sorted x rest else x :: prefix_rev
  end.

Definition insertion_sort (l : list A) : list A :=
  rev (fold_left (fun prefix_rev x => insert_sorted x prefix_rev) l []).

End Insertion.

Section Argsort.

(** [less i j]: the key at position [i] is below the key at position
    [j]. *)
Variable less : nat -> nat -> bool.

(** The array [tosort] of positions, read and written by index. *)
Definition get (a : list nat) (p : nat) : nat := nth p a 0%nat.

Fixpoint put (a : list nat) (p x : nat) : list nat :=
  match a, p with
  | [], _ => []
  | _ :: a', O => x :: a'
  | y :: a', S p' => y :: put a' p' x
  end.

Definition swap (a : list nat) (p q : nat) : list nat :=
  put (put a p (get a q)) q (get a p).

(** The part [pl .. pr] of the array. *)
Definition part (a : list nat) (pl pr : nat) : list nat :=
  firstn (S pr - pl) (skipn pl a).

(** The insertion sort of the part [pl .. pr]. *)
Definition insertion_sort_range (a : list nat) (pl pr : nat) : list nat :=
  firstn pl a ++ insertion_sort less (part a pl pr) ++ skipn (S pr) a.

(** [a[k]] of the heap sort, which counts the positions of its part from
    1: position [pl + k - 1] of the array. *)
Definition heap_get (a : list nat) (pl k : nat) : nat :=
  get a (pl + k - 1).

Definition heap_put (a : list nat) (pl k x : nat) : list nat :=
  put a (pl + k - 1) x.

(** The inner loop of the heap sort, [for (i, j; j <= n;)], with the
    [a[i] = tmp] that follows it: [tmp] sinks from [i] to its place among
    the [n] positions, the larger child moving up in each round.  [j]
    doubles in every round, so [n] rounds are enough. *)
Fixpoint sift_down (fuel : nat) (a : list nat) (pl n tmp i j : nat)
  : list nat :=
  match fuel with
  | O => heap_put a pl i tmp
  | S fuel' =>
      if (j <=? n)%nat then
        let j :=
          if (j <? n)%nat
             && less (heap_get a pl j) (heap_get a pl (j + 1))
          then (j + 1)%nat else j in
        if less tmp (heap_get a pl j) then
          sift_down fuel' (heap_put a pl i (heap_get a pl j)) pl n tmp
                    j (j + j)
        else heap_put a pl i tmp
      else heap_put a pl i tmp
  end.

(** [for (l = n >> 1; l > 0; --l)]: the heap is built. *)
Fixpoint build_heap (l : nat) (a : list nat) (pl n : nat) : list nat :=
  match l with
  | O => a
  | S l' =>
      build_heap l' (sift_down n a pl n (heap_get a pl l) l (l + l)) pl n
  end.

(** [for (; n > 1;)]: the root moves behind the heap, and the last
    position of the heap sinks from the root. *)
Fixpoint sort_heap (n : nat) (a : list nat) (pl : nat) : list nat :=
  match n with
  | O => a
  | S n' =>
      match n' with
      | O => a
      | S _ =>
          let tmp := heap_get a pl n in
          let a := heap_put a pl n (heap_get a pl 1) in
          sort_heap n' (sift_down n' a pl n' tmp 1 2) pl
      end
  end.

(** [aheapsort] of the part [pl .. pr]. *)
Definition aheapsort (a : list nat) (pl pr : nat) : list nat :=
  let n := (pr - pl + 1)%nat in
  sort_heap n (build_heap (n / 2) a pl n) pl.

(** [do ++pi while less(v[*pi], vp)] and [do --pj while less(vp, v[*pj])];
    the scans end at the sentinels the median of three leaves, and the
    fuel is the length of the array. *)
Fixpoint scan_up (fuel : nat) (a : list nat) (vp pi : nat) : nat :=
  match fuel with
  | O => S pi
  | S fuel' =>
      if less (get a (S pi)) vp then scan_up fuel' a vp (S pi) else S pi
  end.

Fixpoint scan_down (fuel : nat) (a : list nat) (vp pj : nat) : nat :=
  match fuel with
  | O => pred pj
  | S fuel' =>
      if less vp (get a (pred pj)) then scan_down fuel' a vp (pred pj)
      else pred pj
  end.

Fixpoint partition_loop (fuel : nat) (a : list nat) (vp pi pj : nat)
  : list nat * nat :=
  match fuel with
  | O => (a, pi)
  | S fuel' =>
      let pi := scan_up (List.length a) a vp pi in
      let pj := scan_down (List.length a) a vp pj in
      if (pj <=? pi)%nat then (a, pi)
      else partition_loop fuel' (swap a pi pj) vp pi pj
  end.

(** The partition of the part [pl .. pr]: the array after it and the
    final place [pi] of the pivot. *)
Definition partition (a : list nat) (pl pr : nat) : list nat * nat :=
  let pm := (pl + (pr - pl) / 2)%nat in
  let a := if less (get a pm) (get a pl) then swap a pm pl else a in
  let a := if less (get a pr) (get a pm) then swap a pr pm else a in
  let a := if less (get a pm) (get a pl) then swap a pm pl else a in
  let vp := get a pm in
  let pj := (pr - 1)%nat in
  let a := swap a pm pj in
  let (a, pi) := partition_loop (List.length a) a vp pl pj in
  (swap a pi (pr - 1), pi).

(** The sort of the part [pl .. pr].  The larger side of a partition goes
    on the stack and is sorted after the smaller one; a part taken from
    the stack with a negative depth is heap-sorted.  [None] stands for
    fuel that ran out, which it does not ([sort_range_spec]). *)
Fixpoint sort_range (fuel : nat) (popped : bool) (cdepth : Z)
         (a : list nat) (pl pr : nat) : option (list nat) :=
  match fuel with
  | O => None
  | S fuel' =>
      if popped && (cdepth <? 0)%Z then Some (aheapsort a pl pr)
      else if (16 <? pr - pl)%nat then
        let (a, pi) := partition a pl pr in
        let cdepth := (cdepth - 1)%Z in
        if (pi - pl <? pr - pi)%nat then
          match sort_range fuel' false cdepth a pl (pi - 1) with
          | Some a => sort_range fuel' true cdepth a (pi + 1) pr
          | None => None
          end
        else
          match sort_range fuel' false cdepth a (pi + 1) pr with
          | Some a => sort_range fuel' true cdepth a pl (pi - 1)
          | None => None
          end
      else Some (insertion_sort_range a pl pr)
  end.

(** [argsort(kind="quicksort")] of [num] keys. *)
Definition numpy_argsort (num : nat) : option (list nat) :=
  match num with
  | O => Some []
  | S _ =>
      sort_range num false (Z.of_nat (2 * Nat.log2 num)) (seq 0 num)
                 0 (num - 1)
  end.

End Argsort.

Definition Rltb (x y : R) : bool := if Rlt_dec x y then true else false.

(** The comparison of two rows by score. *)
Definition less_row (a b : row) : bool := Rltb (Score a) (Score b).

(** pandas' [nargsort(items, ascending=False)]. *)
Definition nargsort_descending (items : list R) : option (list nat) :=
  let non_nans := rev items in
  let non_nan_idx := rev (seq 0 (List.length items)) in
  match numpy_argsort (fun i j => Rltb (nth i non_nans 0%R)
                                       (nth j non_nans 0%R))
                      (List.length items) with
  | Some order =>
      Some (rev (map (fun k => nth k non_nan_idx 0%nat) order))
  | None => None
  end.

(** [self.take(indexer)]. *)
Definition take (rows : list row) (indexer : list nat) : list row :=
  map (fun i => nth i rows (EmptyString, 0%R)) indexer.

Definition pandas_sort_values (rows : list row) : option (list row) :=
  option_map (take rows) (nargsort_descending (map Score rows)).

(** The sorter of the script.  The second branch is never taken: the sort
    always has an answer ([pandas_sort_values_sorts]). *)
Definition numpy_sorter : Sorter := {|
  sort_values := fun rows =>
    match pandas_sort_values rows with
    | Some sorted => sorted
    | None => rows
    end
|}.

(** *** What the steps of the sort establish *)

Section SortInvariants.

(** The keys of the positions. *)
Variable key : nat -> R.

Local Open Scope R_scope.

Definition less_key (i j : nat) : bool := Rltb (key i) (key j).
Definition at_most (i j : nat) : Prop := key i <= key j.
Definition at_least (i j : nat) : Prop := key j <= key i.

(** One partition of the part [pl .. pr] around position [r]. *)
Record partitioned (a a' : list nat) (pl pr r : nat) : Prop := {
  partitioned_length : List.length a' = List.length a;
  partitioned_perm : Permutation a a';
  partitioned_frame :
    forall p, (p < pl \/ pr < p)%nat -> get a' p = get a p;
  partitioned_pivot : (pl < r < pr)%nat;
  partitioned_below :
    forall p, (pl <= p < r)%nat -> key (get a' p) <= key (get a' r);
  partitioned_above :
    forall p, (r < p <= pr)%nat -> key (get a' r) <= key (get a' p)
}.

(** The part [pl .. pr] sorted, the rest in place. *)
Record sorted_range (a a' : list nat) (pl pr : nat) : Prop := {
  sorted_length : List.length a' = List.length a;
  sorted_perm : Permutation a a';
  sorted_frame : forall p, (p < pl \/ pr < p)%nat -> get a' p = get a p;
  sorted_keys :
    forall p q, (pl <= p < q)%nat -> (q <= pr)%nat ->
                key (get a' p) <= key (get a' q)
}.

(** Two parts that do not meet, sorted one after the other. *)
Record both_sorted (a a' : list nat) (xl xr yl yr : nat) : Prop := {
  both_length : List.length a' = List.length a;
  both_perm : Permutation a a';
  both_frame :
    forall p, (p < xl \/ xr < p)%nat -> (p < yl \/ yr < p)%nat ->
              get a' p = get a p;
  both_keys_x :
    forall p q, (xl <= p < q)%nat -> (q <= xr)%nat ->
                key (get a' p) <= key (get a' q);
  both_keys_y :
    forall p q, (yl <= p < q)%nat -> (q <= yr)%nat ->
                key (get a' p) <= key (get a' q);
  both_transfer_x :
    forall Q : nat -> Prop,
      (forall p, (xl <= p <= xr)%nat -> Q (get a p)) ->
      forall p, (xl <= p <= xr)%nat -> Q (get a' p);
  both_transfer_y :
    forall Q : nat -> Prop,
      (forall p, (yl <= p <= yr)%nat -> Q (get a p)) ->
      forall p, (yl <= p <= yr)%nat -> Q (get a' p)
}.

(** The heap sort works on positions counted from [pl]. *)
Variable pl : nat.

(** Among the positions [lo .. n], no child is above its parent. *)
Definition heap_from (a : list nat) (lo n : nat) : Prop :=
  forall k, (lo <= k)%nat ->
    ((2 * k <= n)%nat ->
     key (heap_get a pl (2 * k)) <= key (heap_get a pl k))
    /\ ((2 * k + 1 <= n)%nat ->
        key (heap_get a pl (2 * k + 1)) <= key (heap_get a pl k)).

(** The heap with a hole at [i]: every parent and child other than [i]
    are in order, and what is above [i] is no smaller than [tmp] and than
    what is below [i]. *)
Definition heap_around (a : list nat) (lo n i tmp : nat) : Prop :=
  (forall k, (lo <= k)%nat -> k <> i ->
     ((2 * k <= n)%nat -> (2 * k)%nat <> i ->
      key (heap_get a pl (2 * k)) <= key (heap_get a pl k))
     /\ ((2 * k + 1 <= n)%nat -> (2 * k + 1)%nat <> i ->
         key (heap_get a pl (2 * k + 1)) <= key (heap_get a pl k)))
  /\ (forall k, (lo <= k)%nat -> (2 * k = i \/ 2 * k + 1 = i)%nat ->
       key tmp <= key (heap_get a pl k)
       /\ ((2 * i <= n)%nat ->
           key (heap_get a pl (2 * i)) <= key (heap_get a pl k))
       /\ ((2 * i + 1 <= n)%nat ->
           key (heap_get a pl (2 * i + 1)) <= key (heap_get a pl k))).

(** What [sift_down] establishes. *)
Definition sifted (a a' : list nat) (lo n i tmp : nat) : Prop :=
  List.length a' = List.length a
  /\ Permutation (heap_put a pl i tmp) a'
  /\ (forall p, (p < pl + i - 1 \/ pl + n - 1 < p)%nat ->
                get a' p = get a p)
  /\ heap_from a' lo n.

End SortInvariants.

(** ** The ranker in binary64 *)

(** The scores the script returns are numpy [float64] values.  This is
    [rank_resumes] once more with every operation rounded as IEEE 754
    binary64 does: counts times weights, the sum of squares and the square
    root and division of both normalisations, and the dot product.  Sums
    run over the columns from left to right; the libraries may add in
    another order, which gives the same sum for a row of at most two
    non-zero entries (addition in binary64 commutes, and adding zero is
    exact).  The logarithm of the weight is the one operation the
    standard does not fix bit for bit, except at 1, where it is 0: the
    model has an answer ([Some]) only when every weight is [ln 1 + 1],
    that is, when every term occurs in every document. *)










Section Ranker64.

Context {analyzer : Analyzer}.





End Ranker64.

(** ** A concrete environment for running the model *)

(** An uploaded file: its name and what parsing it yields, page by page. *)
Record upload : Type := Upload {
  upload_name : string;
  upload_pages : result (list (result string))
}.

Definition uploads : PdfLibrary := {|
  File := upload;
  Page := result string;
  name := upload_name;
  PdfReader := upload_pages;
  extract_text := fun page => page
|}.

(** A one-page document with the given text, and a file that fails to
    parse. *)
Definition pdf (name text : string) : upload := Upload name (Ok [Ok text]).
Definition corrupt (name : string) : upload :=
  Upload name (Raise (PdfError "EOF marker not found")).

(** Inputs of the concrete runs. *)
Definition developer : string := "Python developer".
Definition cv_a : upload := pdf "a.pdf" "python engineer".
Definition cv_b : upload := corrupt "b.pdf".
Definition cv_c : upload := pdf "c.pdf" "graphic designer".
Definition cv_scan : upload := pdf "scan.pdf" "".

(** Eighteen uploads with the same text, none of whose terms is in
    [developer]. *)
Definition designer_names : list string :=
  ["cv01.pdf"; "cv02.pdf"; "cv03.pdf"; "cv04.pdf"; "cv05.pdf"; "cv06.pdf";
   "cv07.pdf"; "cv08.pdf"; "cv09.pdf"; "cv10.pdf"; "cv11.pdf"; "cv12.pdf";
   "cv13.pdf"; "cv14.pdf"; "cv15.pdf"; "cv16.pdf"; "cv17.pdf"; "cv18.pdf"].

Definition designers : list upload :=
  map (fun file_name => pdf file_name "graphic designer") designer_names.

(** [main] on uploads, with the default analyzer. *)
Definition run (sorter : Sorter) (job_description : string)
           (uploaded_files : list upload) : M upload unit :=
  @main uploads default_analyzer sorter job_description uploaded_files.

(** * Properties *)

(** ** The effect monad *)

Section MonadFacts.

Context {File : Type}.

Lemma bind_ok {A B : Type} (m : M File A) (k : A -> M File B) (a : A) :
  outcome m = Ok a ->
  bind m k = (events m ++ events (k a), outcome (k a)).
Proof.
  destruct m as [log r]; simpl; intros ->.
  unfold bind; destruct (k a); reflexivity.
Qed.

Lemma bind_raise {A B : Type} (m : M File A) (k : A -> M File B) (e : exn) :
  outcome m = Raise e -> bind m k = (events m, Raise e).
Proof. destruct m as [log r]; simpl; intros ->; reflexivity. Qed.

Lemma reader_calls_app (l1 l2 : list (event File)) :
  reader_calls (l1 ++ l2) = reader_calls l1 ++ reader_calls l2.
Proof.
  induction l1 as [|ev l1 IH]; simpl; [reflexivity|].
  destruct ev; simpl; rewrite IH; reflexivity.
Qed.

Lemma ranking_events_app (l1 l2 : list (event File)) :
  ranking_events (l1 ++ l2) = ranking_events l1 ++ ranking_events l2.
Proof. apply filter_app. Qed.

Lemma warnings_app (l1 l2 : list (event File)) :
  warnings (l1 ++ l2) = warnings l1 ++ warnings l2.
Proof. apply filter_app. Qed.

End MonadFacts.

(** ** Text extraction *)

Lemma append_assoc (s1 s2 s3 : string) :
  ((s1 ++ s2) ++ s3 = s1 ++ (s2 ++ s3))%string.
Proof. induction s1 as [|c s1 IH]; simpl; [reflexivity | now rewrite IH]. Qed.

Lemma append_empty_r (s : string) : (s ++ "")%string = s.
Proof. induction s as [|c s IH]; simpl; [reflexivity | now rewrite IH]. Qed.

Section TextExtractorFacts.

Context {pdflib : PdfLibrary}.

Lemma extract_pages_cases (pages : list Page) (text : string) :
  (exists texts,
      Forall2 (fun p t => extract_text p = Ok t) pages texts
      /\ extract_pages pages text = Ok (text ++ join texts)%string)
  \/ (exists e,
         first_failing_page pages e /\ extract_pages pages text = Raise e).
Proof.
  revert text; induction pages as [|page rest IH]; intro text; simpl.
  - left; exists []; split; [constructor|].
    simpl; now rewrite append_empty_r.
  - destruct (extract_text page) as [t|e] eqn:Hpage; simpl.
    + destruct (IH (text ++ t)%string)
        as [(texts & Hall & Heq)|(e & Hf & Heq)].
      * left; exists (t :: texts); split; [constructor; assumption|].
        rewrite Heq; simpl; now rewrite append_assoc.
      * right; exists e; split; [|assumption].
        destruct Hf as (before & p & after & -> & Hb & Hp).
        exists (page :: before), p, after; repeat split; auto.
        constructor; eauto.
    + right; exists e; split; [|reflexivity].
      exists [], page, rest; repeat split; auto.
Qed.

Lemma extract_text_from_pdf_cases (file : File) :
  (exists pages texts,
      PdfReader file = Ok pages
      /\ Forall2 (fun p t => extract_text p = Ok t) pages texts
      /\ extract_text_from_pdf file
         = ([PdfReaderCall file], Ok (Some (join texts))))
  \/ (exists e,
         (PdfReader file = Raise e
          \/ exists pages,
              PdfReader file = Ok pages /\ first_failing_page pages e)
         /\ extract_text_from_pdf file
            = ([PdfReaderCall file;
                StError (msg_reading_pdf ++ exn_str e)], Ok None)).
Proof.
  unfold extract_text_from_pdf, try_except, bind, emit, lift, ret.
  destruct (PdfReader file) as [pages|e] eqn:Hread; simpl.
  - destruct (extract_pages_cases pages EmptyString)
      as [(texts & Hall & Heq)|(e & Hf & Heq)]; rewrite Heq; simpl.
    + left; exists pages, texts; repeat split; auto.
    + right; exists e; split; [right; eauto|reflexivity].
  - right; exists e; split; [left; reflexivity|reflexivity].
Qed.

(** The helper never raises: its outcome is the value it hands back. *)
Lemma extract_outcome (file : File) :
  outcome (extract_text_from_pdf file) = Ok (extracted file).
Proof.
  unfold extracted.
  destruct (extract_text_from_pdf_cases file)
    as [(pages & texts & _ & _ & ->)|(e & _ & ->)]; reflexivity.
Qed.

(** Every call starts by handing the file to [PdfReader], and logs
    nothing that counts as a ranking event or a warning. *)
Lemma extract_events (file : File) :
  reader_calls (events (extract_text_from_pdf file)) = [file]
  /\ ranking_events (events (extract_text_from_pdf file)) = []
  /\ warnings (events (extract_text_from_pdf file)) = [].
Proof.
  destruct (extract_text_from_pdf_cases file)
    as [(pages & texts & _ & _ & ->)|(e & _ & ->)]; repeat split.
Qed.

(** C10.  [extract_text_from_pdf] always returns: either the document
    parses and every page yields its text, and the value is the
    concatenation of the page texts in page order, with nothing reported;
    or parsing, or the first failing page, raised [e], and the value is
    [None] after the error has been reported with [st.error].  No
    exception leaves the function. *)
Theorem extract_text_from_pdf_total (file : File) :
  (exists pages texts,
      PdfReader file = Ok pages
      /\ Forall2 (fun p t => extract_text p = Ok t) pages texts
      /\ extract_text_from_pdf file
         = ([PdfReaderCall file], Ok (Some (join texts))))
  \/ (exists e,
         (PdfReader file = Raise e
          \/ exists pages,
              PdfReader file = Ok pages /\ first_failing_page pages e)
         /\ extract_text_from_pdf file
            = ([PdfReaderCall file;
                StError (msg_reading_pdf ++ exn_str e)], Ok None)).
Proof. exact (extract_text_from_pdf_cases file). Qed.

End TextExtractorFacts.

(** ** The extraction loop and the input guard *)

Section BatchFacts.

Context {pdflib : PdfLibrary} {analyzer : Analyzer} {sorter : Sorter}.

Lemma extraction_log_app (l1 l2 : list File) :
  extraction_log (l1 ++ l2) = extraction_log l1 ++ extraction_log l2.
Proof. apply flat_map_app. Qed.

Lemma extraction_log_calls (files : list File) :
  reader_calls (extraction_log files) = files
  /\ ranking_events (extraction_log files) = []
  /\ warnings (extraction_log files) = [].
Proof.
  induction files as [|file rest (IH1 & IH2 & IH3)]; [repeat split|].
  destruct (extract_events file) as (H1 & H2 & H3).
  unfold extraction_log in *; simpl.
  rewrite reader_calls_app, ranking_events_app, warnings_app.
  rewrite H1, H2, H3, IH1, IH2, IH3; repeat split.
Qed.

Lemma usable_text (file : File) :
  usable file ->
  exists c s, extracted file = Some (String c s)
              /\ text_of file = String c s.
Proof.
  unfold usable, text_of.
  destruct (extracted file) as [[|c s]|]; simpl; try discriminate.
  intros _; exists c, s; split; reflexivity.
Qed.

(** The loop over a batch in which every file is usable. *)
Lemma extraction_loop_usable (files : list File)
      (resumes resume_names : list string) :
  Forall usable files ->
  extraction_loop files resumes resume_names
  = (extraction_log files,
     Ok (true, (resumes ++ map text_of files,
                resume_names ++ map name files))).
Proof.
  intros Hall; revert resumes resume_names.
  induction Hall as [|file rest Hfile _ IH]; intros resumes resume_names.
  - simpl; unfold ret; now rewrite !app_nil_r.
  - simpl extraction_loop.
    rewrite (bind_ok _ _ _ (extract_outcome file)).
    destruct (usable_text file Hfile) as (c & s & -> & Htext).
    rewrite IH; simpl; rewrite Htext, <- !app_assoc; reflexivity.
Qed.

(** The loop over a batch whose first unusable file is [file]. *)
Lemma extraction_loop_unusable (before : list File) (file : File)
      (after : list File) (resumes resume_names : list string) :
  Forall usable before ->
  unusable file ->
  extraction_loop (before ++ file :: after) resumes resume_names
  = (extraction_log (before ++ [file]),
     Ok (false, (resumes ++ map text_of before,
                 resume_names ++ map name before))).
Proof.
  intros Hall Hfile; revert resumes resume_names.
  induction Hall as [|g rest Hg _ IH]; intros resumes resume_names.
  - simpl extraction_loop.
    rewrite (bind_ok _ _ _ (extract_outcome file)).
    unfold unusable in Hfile; unfold extraction_log; simpl.
    rewrite !app_nil_r.
    destruct (extracted file) as [[|c s]|]; simpl in *;
      try discriminate; rewrite app_nil_r; reflexivity.
  - simpl extraction_loop.
    rewrite (bind_ok _ _ _ (extract_outcome g)).
    destruct (usable_text g Hg) as (c & s & -> & Htext).
    rewrite IH; simpl; rewrite Htext, <- !app_assoc; reflexivity.
Qed.

Lemma usable_dec (file : File) : {usable file} + {unusable file}.
Proof.
  unfold usable, unusable.
  destruct (text_truthy (extracted file)); [left|right]; reflexivity.
Qed.

(** A batch that holds an unusable file has a first one. *)
Lemma first_unusable (files : list File) :
  Exists unusable files ->
  exists before file after,
    files = before ++ file :: after
    /\ Forall usable before /\ unusable file.
Proof.
  induction files as [|g rest IH]; intros Hex; [inversion Hex|].
  destruct (usable_dec g) as [Hg|Hg].
  - assert (Hrest : Exists unusable rest).
    { inversion Hex; subst; [|assumption].
      unfold usable, unusable in *; congruence. }
    destruct (IH Hrest) as (before & file & after & -> & Hb & Hf).
    exists (g :: before), file, after; repeat split; auto.
  - exists [], g, rest; repeat split; auto.
Qed.

(** What the processing block does on a batch whose first unusable file
    is [file]. *)
Lemma process_unusable (job_description : string) (before : list File)
      (file : File) (after : list File) :
  Forall usable before ->
  unusable file ->
  process job_description (before ++ file :: after)
  = (extraction_log (before ++ [file]) ++ [StError msg_batch_failed],
     Ok tt).
Proof.
  intros Hall Hfile; unfold process.
  rewrite (extraction_loop_unusable before file after [] [] Hall Hfile).
  reflexivity.
Qed.

Lemma main_processes (job_description : string)
      (uploaded_files : list File) :
  str_truthy job_description = true ->
  list_truthy uploaded_files = true ->
  main job_description uploaded_files
  = process job_description uploaded_files.
Proof. unfold main; intros -> ->; reflexivity. Qed.

(** Without a job description, or without files, [main] logs at most one
    warning and nothing else. *)
Lemma main_guarded (job_description : string) (uploaded_files : list File) :
  str_truthy job_description = false \/ list_truthy uploaded_files = false ->
  main job_description uploaded_files
  = (match uploaded_files, job_description with
     | [], EmptyString => []
     | _ :: _, EmptyString => [StWarning msg_need_job_description]
     | _, _ => [StWarning msg_need_resumes]
     end, Ok tt).
Proof.
  unfold main.
  destruct uploaded_files, job_description; simpl; intros [H|H];
    try discriminate; reflexivity.
Qed.

(** No ranking event is logged for a batch that holds an unusable
    file, whatever the job description. *)
Lemma main_unusable_no_ranking (job_description : string)
      (before : list File) (file : File) (after : list File) :
  Forall usable before ->
  unusable file ->
  ranking_events
    (events (main job_description (before ++ file :: after))) = [].
Proof.
  intros Hall Hfile.
  destruct (str_truthy job_description) eqn:Hjd.
  - rewrite main_processes; auto; [|now destruct before].
    rewrite process_unusable by assumption; simpl.
    rewrite ranking_events_app.
    destruct (extraction_log_calls (before ++ [file])) as (_ & -> & _).
    reflexivity.
  - rewrite main_guarded by (left; assumption).
    destruct (before ++ file :: after), job_description; reflexivity.
Qed.

End BatchFacts.

Section BatchClaims.

Context {pdflib : PdfLibrary} {analyzer : Analyzer} {sorter : Sorter}.

(** C1.  In a batch whose first unusable document is [file] (its
    extraction failed, or gave no text): the documents up to and
    including [file] are handed to the extractor and none after it; the
    loop ends with [valid_files = False]; the block reports the batch
    failure and returns; and no ranking event (ranker call, table,
    export) is logged for that batch, whatever the job description. *)
Theorem batch_stops_at_first_failure (job_description : string)
        (before : list File) (file : File) (after : list File) :
  Forall usable before ->
  unusable file ->
  let batch := before ++ file :: after in
  reader_calls (events (process job_description batch)) = before ++ [file]
  /\ outcome (extraction_loop batch [] [])
     = Ok (false, (map text_of before, map name before))
  /\ process job_description batch
     = (extraction_log (before ++ [file]) ++ [StError msg_batch_failed],
        Ok tt)
  /\ (str_truthy job_description = true ->
      main job_description batch = process job_description batch)
  /\ (forall jd, ranking_events (events (main jd batch)) = []).
Proof.
  intros Hall Hfile batch; subst batch.
  rewrite process_unusable by assumption.
  rewrite (extraction_loop_unusable before file after [] [] Hall Hfile).
  repeat split.
  - simpl; rewrite reader_calls_app.
    destruct (extraction_log_calls (before ++ [file])) as (-> & _).
    simpl; now rewrite app_nil_r.
  - intros Hjd; rewrite main_processes; auto.
    + now rewrite process_unusable.
    + now destruct before.
  - intros jd; now apply main_unusable_no_ranking.
Qed.

(** C6.  A batch that holds a document whose extraction failed or gave
    the empty string never reaches the ranker: no ranker call, table or
    export is logged.  With a job description present, the run returns
    normally and its last report is the batch failure. *)
Theorem empty_text_rejects_batch (job_description : string)
        (files : list File) (file : File) :
  In file files ->
  extracted file = None \/ extracted file = Some EmptyString ->
  ranking_events (events (main job_description files)) = []
  /\ (str_truthy job_description = true ->
      outcome (main job_description files) = Ok tt
      /\ exists log,
          events (main job_description files)
          = log ++ [StError msg_batch_failed]).
Proof.
  intros Hin Hfile.
  assert (Hex : Exists unusable files).
  { apply Exists_exists; exists file; split; [assumption|].
    unfold unusable; destruct Hfile as [-> | ->]; reflexivity. }
  destruct (first_unusable files Hex)
    as (before & g & after & -> & Hb & Hg).
  split; [now apply main_unusable_no_ranking|].
  intros Hjd; rewrite main_processes; auto; [|now destruct before].
  rewrite process_unusable by assumption.
  split; [reflexivity | eexists; reflexivity].
Qed.

(** C5, as the code has it.  With the job description or the uploads
    missing, nothing is extracted and the ranker is not invoked.  When
    exactly one of the two is missing, one warning is logged (which one
    says what is missing); when both are missing, nothing is logged. *)
Theorem missing_input_guard (job_description : string)
        (uploaded_files : list File) :
  job_description = EmptyString \/ uploaded_files = [] ->
  let log := events (main job_description uploaded_files) in
  ranking_events log = []
  /\ reader_calls log = []
  /\ outcome (main job_description uploaded_files) = Ok tt
  /\ (job_description = EmptyString -> uploaded_files <> [] ->
      log = [StWarning msg_need_job_description])
  /\ (job_description <> EmptyString -> uploaded_files = [] ->
      log = [StWarning msg_need_resumes])
  /\ (job_description = EmptyString -> uploaded_files = [] -> log = []).
Proof.
  intros H log; subst log.
  rewrite main_guarded
    by (destruct H as [-> | ->]; [left|right]; reflexivity).
  destruct uploaded_files, job_description; simpl; repeat split;
    try reflexivity; try congruence;
    destruct H; discriminate.
Qed.

End BatchClaims.

(** ** Rows, dot products and normalisation *)

Section VectorFacts.

Local Open Scope R_scope.

Lemma dot_cons (a b : R) (x y : vector) :
  dot (a :: x) (b :: y) = a * b + dot x y.
Proof. reflexivity. Qed.


Lemma dot_self_nonneg (x : vector) : 0 <= dot x x.
Proof.
  induction x as [|a x IH]; [apply Rle_refl|].
  rewrite dot_cons; nra.
Qed.



Lemma dot_scaled (x y : vector) (c d : R) :
  c <> 0 -> d <> 0 ->
  dot (map (fun a => a / c) x) (map (fun b => b / d) y)
  = dot x y / (c * d).
Proof.
  intros Hc Hd; revert y; induction x as [|a x IH]; intros y.
  - unfold dot; simpl; field; auto.
  - destruct y as [|b y].
    + unfold dot; simpl; field; auto.
    + simpl map; rewrite !dot_cons, IH; field; auto.
Qed.

Lemma normalize_scaling (v : vector) :
  normalize v = map (fun a => a / scale_of v) v.
Proof. reflexivity. Qed.

Lemma scale_of_pos (v : vector) : 0 < scale_of v.
Proof.
  unfold scale_of, l2_norm.
  destruct (Req_dec_T (sqrt (dot v v)) 0) as [_|Hn]; [lra|].
  pose proof (sqrt_pos (dot v v)); lra.
Qed.





Lemma dot_disjoint_support (x y : vector) :
  disjoint_support x y -> dot x y = 0.
Proof.
  induction 1 as [|a b x y Hab _ IH]; [reflexivity|].
  rewrite dot_cons, IH; destruct Hab as [-> | ->]; lra.
Qed.

Lemma normalize_disjoint_support (x y : vector) :
  disjoint_support x y -> disjoint_support (normalize x) (normalize y).
Proof.
  rewrite !normalize_scaling.
  generalize (scale_of x), (scale_of y); intros c d.
  induction 1 as [|a b x' y' Hab _ IH]; simpl; constructor; auto.
  destruct Hab as [-> | ->]; [left|right]; unfold Rdiv; apply Rmult_0_l.
Qed.

(** One row against the rows of a matrix of the same width. *)
Lemma cosine_similarity_row (x : vector) (Y : matrix) :
  Y <> [] ->
  width_ok (List.length x) Y = true ->
  cosine_similarity [x] Y = Ok [map (cosine x) Y].
Proof.
  intros HY HW; unfold cosine_similarity.
  destruct Y as [|y Y]; [congruence|].
  rewrite HW; simpl; rewrite Nat.eqb_refl; reflexivity.
Qed.

Lemma sum_permutation (x y : vector) : Permutation x y -> sum x = sum y.
Proof.
  induction 1 as [|a x y _ IH|a b x|x y z _ IH1 _ IH2]; simpl;
    [reflexivity | rewrite IH; reflexivity | lra | congruence].
Qed.

Lemma sum_map_permutation {A : Type} (h h' : A -> R) (V V' : list A) :
  Permutation V V' ->
  (forall t, h t = h' t) ->
  sum (map h V) = sum (map h' V').
Proof.
  intros HV Hh; rewrite (map_ext _ _ Hh).
  apply sum_permutation, Permutation_map, HV.
Qed.

Lemma dot_map_map {A : Type} (f g : A -> R) (V : list A) :
  dot (map f V) (map g V) = sum (map (fun t => f t * g t) V).
Proof.
  induction V as [|t V IH]; [reflexivity|].
  simpl map; rewrite dot_cons, IH; reflexivity.
Qed.

Lemma normalize_map {A : Type} (f : A -> R) (V : list A) :
  normalize (map f V) = map (normalized_column V f) V.
Proof. rewrite normalize_scaling, map_map; reflexivity. Qed.

Lemma normalized_column_permutation {A : Type} (V V' : list A)
      (f f' : A -> R) :
  Permutation V V' ->
  (forall t, f t = f' t) ->
  forall t, normalized_column V f t = normalized_column V' f' t.
Proof.
  intros HV Hf t; unfold normalized_column, scale_of, l2_norm.
  rewrite !dot_map_map.
  rewrite (sum_map_permutation (fun t => f t * f t) (fun t => f' t * f' t)
                               V V' HV)
    by (intros u; now rewrite Hf).
  now rewrite Hf.
Qed.

(** The cosine of two rows over the same columns does not depend on the
    order of the columns. *)
Lemma cosine_permutation {A : Type} (V V' : list A) (f f' g g' : A -> R) :
  Permutation V V' ->
  (forall t, f t = f' t) ->
  (forall t, g t = g' t) ->
  cosine (normalize (map f V)) (normalize (map g V))
  = cosine (normalize (map f' V')) (normalize (map g' V')).
Proof.
  intros HV Hf Hg; unfold cosine.
  rewrite !normalize_map, !dot_map_map.
  apply sum_map_permutation; [assumption|]; intros t.
  f_equal; apply normalized_column_permutation; auto;
    apply normalized_column_permutation; auto.
Qed.

End VectorFacts.

(** ** The vector space and the ranker *)

Section RankerFacts.

Context {analyzer : Analyzer}.

Local Open Scope R_scope.

Lemma document_frequency_le (documents : list string) (t : string) :
  (document_frequency documents t <= List.length documents)%nat.
Proof. apply filter_length_le. Qed.

(** A term occurs in at most every document, so its weight is at least
    one. *)
Lemma idf_ge_1 (documents : list string) (t : string) : 1 <= idf documents t.
Proof.
  unfold idf.
  pose proof (document_frequency_le documents t) as Hle.
  apply le_INR in Hle.
  pose proof (pos_INR (document_frequency documents t)) as Hdf.
  set (n := INR (List.length documents)) in *.
  set (d := INR (document_frequency documents t)) in *.
  assert (Hq : 1 <= (1 + n) / (1 + d)).
  { apply (Rmult_le_reg_r (1 + d)); [lra|].
    unfold Rdiv; rewrite Rmult_assoc, Rinv_l by lra; lra. }
  destruct Hq as [Hlt|Heq].
  - pose proof (ln_increasing 1 _ Rlt_0_1 Hlt) as Hln.
    rewrite ln_1 in Hln; lra.
  - rewrite <- Heq, ln_1; lra.
Qed.



Lemma document_vector_length (documents : list string) (doc : string) :
  List.length (document_vector documents doc)
  = List.length (vocabulary documents).
Proof.
  unfold document_vector, normalize, tfidf_row; now rewrite !length_map.
Qed.


(** Texts without a common term have rows that are never both non-zero
    in one column. *)
Lemma no_shared_term_rows (documents vocab : list string) (d1 d2 : string) :
  (forall t, In t (analyze d1) -> ~ In t (analyze d2)) ->
  disjoint_support (tfidf_row documents vocab d1)
                   (tfidf_row documents vocab d2).
Proof.
  intros Hno; unfold disjoint_support, tfidf_row.
  induction vocab as [|t vocab IH]; simpl; constructor; auto.
  unfold term_count.
  destruct (in_dec string_dec t (analyze d1)) as [Hin|Hout].
  - right.
    apply Hno, (count_occ_not_In string_dec) in Hin.
    rewrite Hin; simpl; apply Rmult_0_l.
  - left.
    apply (count_occ_not_In string_dec) in Hout.
    rewrite Hout; simpl; apply Rmult_0_l.
Qed.

Lemma resume_score_no_shared_term (documents : list string)
      (job_description resume : string) :
  (forall t, In t (analyze job_description) -> ~ In t (analyze resume)) ->
  resume_score documents job_description resume = 0.
Proof.
  intros Hno; unfold resume_score, cosine, document_vector.
  apply dot_disjoint_support.
  do 2 apply normalize_disjoint_support.
  now apply no_shared_term_rows.
Qed.

(** *** What [rank_resumes] returns *)

Lemma fit_transform_rows (documents : list string) :
  vocabulary documents <> [] ->
  fit_transform documents = Ok (map (document_vector documents) documents).
Proof.
  unfold fit_transform, document_vector.
  destruct (vocabulary documents); [congruence | reflexivity].
Qed.

Lemma fit_transform_empty_vocabulary (documents : list string) :
  vocabulary documents = [] ->
  fit_transform documents = Raise (ValueError msg_empty_vocabulary).
Proof. unfold fit_transform; now intros ->. Qed.

Lemma width_ok_rows (documents batch : list string) :
  width_ok (List.length (vocabulary documents))
           (map (document_vector documents) batch) = true.
Proof.
  unfold width_ok; apply forallb_forall; intros v Hv.
  apply in_map_iff in Hv; destruct Hv as (doc & <- & _).
  rewrite document_vector_length; apply Nat.eqb_refl.
Qed.

(** The three outcomes of [rank_resumes]. *)
Lemma rank_resumes_cases (job_description : string)
      (resumes : list string) :
  rank_resumes job_description resumes
  = match vocabulary (job_description :: resumes), resumes with
    | [], _ => Raise (ValueError msg_empty_vocabulary)
    | _ :: _, [] => Raise (ValueError msg_no_samples)
    | _ :: _, _ :: _ =>
        Ok (map (resume_score (job_description :: resumes) job_description)
                resumes)
    end.
Proof.
  unfold rank_resumes.
  destruct (vocabulary (job_description :: resumes)) as [|t vocab] eqn:Hv.
  - now rewrite fit_transform_empty_vocabulary.
  - rewrite fit_transform_rows by congruence.
    cbn [result_bind map hd tl].
    destruct resumes as [|r rest]; [reflexivity|].
    set (documents := job_description :: r :: rest) in *.
    rewrite cosine_similarity_row.
    + rewrite map_map.
      unfold result_map, result_bind, flatten; simpl.
      now rewrite app_nil_r.
    + discriminate.
    + rewrite document_vector_length.
      apply (width_ok_rows documents (r :: rest)).
Qed.

Lemma rank_resumes_scores (job_description : string)
      (resumes : list string) :
  resumes <> [] ->
  vocabulary (job_description :: resumes) <> [] ->
  rank_resumes job_description resumes
  = Ok (map (resume_score (job_description :: resumes) job_description)
            resumes).
Proof.
  intros Hr Hv; rewrite rank_resumes_cases.
  destruct (vocabulary (job_description :: resumes)); [congruence|].
  destruct resumes; [congruence | reflexivity].
Qed.

Lemma rank_resumes_ok_inv (job_description : string)
      (resumes : list string) (scores : vector) :
  rank_resumes job_description resumes = Ok scores ->
  resumes <> []
  /\ vocabulary (job_description :: resumes) <> []
  /\ scores
     = map (resume_score (job_description :: resumes) job_description)
           resumes.
Proof.
  rewrite rank_resumes_cases.
  destruct (vocabulary (job_description :: resumes)); [discriminate|].
  destruct resumes; [discriminate|].
  intros [= <-]; repeat split; discriminate.
Qed.

End RankerFacts.

(** ** Reordering the resumes *)

Lemma filter_length_permutation {A : Type} (f : A -> bool) (l l' : list A) :
  Permutation l l' ->
  List.length (filter f l) = List.length (filter f l').
Proof.
  induction 1 as [|a l l' _ IH|a b l|l l' l'' _ IH1 _ IH2]; simpl.
  - reflexivity.
  - destruct (f a); simpl; congruence.
  - destruct (f a), (f b); reflexivity.
  - congruence.
Qed.

Lemma permute_identity {A : Type} (d : A) (l : list A) :
  permute d (seq 0 (List.length l)) l = l.
Proof.
  unfold permute; induction l as [|a l IH]; [reflexivity|].
  simpl; rewrite <- seq_shift, map_map; simpl; now rewrite IH.
Qed.

Lemma permute_permutation {A : Type} (d : A) (p : list nat) (l : list A) :
  Permutation p (seq 0 (List.length l)) -> Permutation l (permute d p l).
Proof.
  intros Hp.
  rewrite <- (permute_identity d l) at 1; unfold permute.
  apply Permutation_map, Permutation_sym, Hp.
Qed.

Lemma permute_map {A B : Type} (f : A -> B) (d : A) (e : B) (p : list nat)
      (l : list A) :
  Permutation p (seq 0 (List.length l)) ->
  permute e p (map f l) = map f (permute d p l).
Proof.
  intros Hp; unfold permute; rewrite map_map.
  apply map_ext_in; intros i Hi.
  apply (Permutation_in _ Hp), in_seq in Hi.
  rewrite (nth_indep _ e (f d)) by (rewrite length_map; lia).
  apply map_nth.
Qed.

Section RankerPermutation.

Context {analyzer : Analyzer}.

Lemma vocabulary_permutation (documents documents' : list string) :
  Permutation documents documents' ->
  Permutation (vocabulary documents) (vocabulary documents').
Proof.
  intros Hp; unfold vocabulary.
  rewrite <- !StringSort.Permuted_sort.
  apply NoDup_Permutation; try apply NoDup_nodup.
  intros t; rewrite !nodup_In, !in_flat_map.
  split; intros (doc & Hdoc & Ht); exists doc; split; auto.
  - now apply (Permutation_in _ Hp).
  - now apply (Permutation_in _ (Permutation_sym Hp)).
Qed.

Lemma idf_permutation (documents documents' : list string) (t : string) :
  Permutation documents documents' ->
  idf documents t = idf documents' t.
Proof.
  intros Hp; unfold idf, document_frequency.
  now rewrite (Permutation_length Hp), (filter_length_permutation _ _ _ Hp).
Qed.

(** A resume's score depends on the batch only as a multiset of
    documents. *)
Lemma resume_score_permutation (documents documents' : list string)
      (job_description resume : string) :
  Permutation documents documents' ->
  resume_score documents job_description resume
  = resume_score documents' job_description resume.
Proof.
  intros Hp; unfold resume_score, document_vector, tfidf_row.
  apply cosine_permutation.
  - now apply vocabulary_permutation.
  - intros t; now rewrite (idf_permutation _ _ t Hp).
  - intros t; now rewrite (idf_permutation _ _ t Hp).
Qed.

End RankerPermutation.

(** ** Claims about the ranker *)

Section RankerClaims.

Context {analyzer : Analyzer}.

Local Open Scope R_scope.

(** C2, as the code has it.  For a non-empty list of resume texts whose
    combined vocabulary with the job description is not empty,
    [rank_resumes] returns one score per resume, and the score at
    position [i] is the cosine similarity of the rows of the job
    description and of resume [i]. *)
Theorem rank_resumes_one_score_per_resume (job_description : string)
        (resumes : list string) :
  resumes <> [] ->
  vocabulary (job_description :: resumes) <> [] ->
  exists scores,
    rank_resumes job_description resumes = Ok scores
    /\ List.length scores = List.length resumes
    /\ forall i,
        (i < List.length resumes)%nat ->
        nth i scores 0
        = resume_score (job_description :: resumes) job_description
                       (nth i resumes EmptyString).
Proof.
  intros Hr Hv; eexists; split; [now apply rank_resumes_scores|].
  split; [apply length_map|].
  intros i Hi.
  rewrite (nth_indep _ 0 (resume_score (job_description :: resumes)
                                       job_description EmptyString))
    by (rewrite length_map; exact Hi).
  apply map_nth.
Qed.


(** In exact arithmetic, ranking the resumes rearranged by [p] gives the
    scores of the original order rearranged by the same [p]; when the
    ranker raises, it raises the same exception for both orders.  The
    binary64 scores of the script are sums rounded in an order that
    scikit-learn fixes, not the script: the equality is not claimed of
    them to the last bit. *)
Theorem rank_resumes_permutation (job_description : string)
        (resumes : list string) (p : list nat) :
  Permutation p (seq 0 (List.length resumes)) ->
  rank_resumes job_description (permute EmptyString p resumes)
  = result_map (permute 0 p) (rank_resumes job_description resumes).
Proof.
  intros Hp.
  pose proof (permute_permutation EmptyString p resumes Hp) as Hperm.
  assert (Hdocs : Permutation (job_description :: resumes)
                    (job_description :: permute EmptyString p resumes))
    by now constructor.
  pose proof (vocabulary_permutation _ _ Hdocs) as Hvoc.
  rewrite !rank_resumes_cases.
  destruct (vocabulary (job_description :: resumes)) as [|t V].
  - apply Permutation_nil in Hvoc; rewrite Hvoc; reflexivity.
  - destruct (vocabulary (job_description :: permute EmptyString p resumes))
      as [|t' V'].
    + apply Permutation_sym, Permutation_nil in Hvoc; discriminate.
    + destruct resumes as [|r rest].
      * apply Permutation_nil in Hperm; rewrite Hperm; reflexivity.
      * destruct (permute EmptyString p (r :: rest)) as [|r' rest'] eqn:Hq.
        { apply Permutation_sym, Permutation_nil in Hperm; discriminate. }
        rewrite <- Hq in *.
        unfold result_map, result_bind; f_equal.
        rewrite (permute_map _ EmptyString 0) by assumption.
        apply map_ext; intros r0.
        symmetry; now apply resume_score_permutation.
Qed.

End RankerClaims.

(** ** Ranking and display *)

Lemma map_snd_combine_seq {A : Type} (start : nat) (l : list A) :
  map snd (combine (seq start (List.length l)) l) = l
  /\ map fst (combine (seq start (List.length l)) l)
     = seq start (List.length l).
Proof.
  revert start; induction l as [|a l IH]; intros start; [split; reflexivity|].
  simpl; destruct (IH (S start)) as (-> & ->); split; reflexivity.
Qed.

Section DisplayFacts.

Context {pdflib : PdfLibrary} {analyzer : Analyzer} {sorter : Sorter}.

(** The three ways [rank_and_show] can end. *)
Lemma rank_and_show_cases (job_description : string)
      (resumes resume_names : list string) :
  List.length resume_names = List.length resumes ->
  rank_and_show job_description resumes resume_names
  = match vocabulary (job_description :: resumes), resumes with
    | [], _ =>
        ([RankCall job_description resumes],
         Raise (ValueError msg_empty_vocabulary))
    | _ :: _, [] =>
        ([RankCall job_description resumes],
         Raise (ValueError msg_no_samples))
    | _ :: _, _ :: _ =>
        let results :=
          results_table job_description resumes resume_names in
        ([RankCall job_description resumes;
          StMarkdown msg_ranking_results;
          StDataframe results;
          StDownloadButton (to_csv results) "resume_ranking.csv"],
         Ok tt)
    end.
Proof.
  intros Hlen; unfold rank_and_show, results_table.
  rewrite rank_resumes_cases.
  destruct (vocabulary (job_description :: resumes)); [reflexivity|].
  destruct resumes as [|r rest]; [reflexivity|].
  set (scores := map _ (r :: rest)).
  assert (Hdf : DataFrame resume_names scores
                = Ok (combine resume_names scores)).
  { unfold DataFrame, scores.
    now rewrite length_map, Hlen, Nat.eqb_refl. }
  unfold bind, emit, lift; rewrite Hdf; reflexivity.
Qed.

(** The processing block on a batch of usable files. *)
Lemma process_usable (job_description : string) (files : list File) :
  files <> [] ->
  Forall usable files ->
  process job_description files
  = (extraction_log files
     ++ events (rank_and_show job_description (map text_of files)
                              (map name files)),
     outcome (rank_and_show job_description (map text_of files)
                            (map name files))).
Proof.
  intros Hne Hall; unfold process.
  rewrite (extraction_loop_usable files [] [] Hall); simpl.
  destruct files as [|file rest]; [congruence|].
  destruct (usable_text file (Forall_inv Hall)) as (c & s & _ & Ht).
  unfold report; simpl map; rewrite Ht; simpl list_truthy; cbv iota.
  destruct (rank_and_show _ _ _); reflexivity.
Qed.

(** A run that shows a table: every file was usable, and the table is
    the one computed from all of them. *)
Lemma main_shows_table (job_description : string) (files : list File)
      (results : list (nat * row)) :
  In (StDataframe results) (events (main job_description files)) ->
  Forall usable files
  /\ files <> []
  /\ vocabulary (job_description :: map text_of files) <> []
  /\ results
     = results_table job_description (map text_of files) (map name files)
  /\ In (StDownloadButton (to_csv results) "resume_ranking.csv")
        (events (main job_description files)).
Proof.
  intros Hin.
  assert (Hrank : In (StDataframe results)
                     (ranking_events
                        (events (main job_description files))))
    by (apply filter_In; split; [assumption | reflexivity]).
  destruct (str_truthy job_description) eqn:Hjd;
    [destruct (list_truthy files) eqn:Hfiles|].
  - destruct (Exists_dec unusable files) as [Hex|Hall].
    + intros g; destruct (usable_dec g); [right|left]; auto.
      unfold usable, unusable in *; congruence.
    + destruct (first_unusable _ Hex)
        as (before & g & after & -> & Hb & Hg).
      rewrite main_unusable_no_ranking in Hrank by assumption.
      destruct Hrank.
    + assert (Hus : Forall usable files).
      { apply Forall_forall; intros g Hg.
        destruct (usable_dec g) as [|Hn]; [assumption|].
        exfalso; apply Hall, Exists_exists; eauto. }
      assert (Hne : files <> []) by (destruct files; discriminate).
      rewrite main_processes in * by assumption.
      rewrite process_usable in * by assumption.
      rewrite rank_and_show_cases in * by now rewrite !length_map.
      simpl events in *.
      rewrite ranking_events_app in Hrank.
      destruct (extraction_log_calls files) as (_ & Hnone & _).
      rewrite Hnone in Hrank; clear Hnone Hin.
      destruct (vocabulary (job_description :: map text_of files))
        as [|t V] eqn:Hv.
      * simpl in Hrank; destruct Hrank as [|[]]; discriminate.
      * destruct (map text_of files) as [|r rest] eqn:Hr.
        { simpl in Hrank; destruct Hrank as [|[]]; discriminate. }
        simpl in Hrank.
        destruct Hrank as [|[|[Heq|[|[]]]]]; try discriminate.
        injection Heq as <-.
        repeat split; auto; try discriminate.
        apply in_or_app; right; simpl; auto.
  - rewrite main_guarded in Hrank by (right; assumption).
    destruct files, job_description; simpl in Hrank;
      try discriminate; destruct Hrank.
  - rewrite main_guarded in Hrank by (left; assumption).
    destruct files, job_description; simpl in Hrank;
      try discriminate; destruct Hrank.
Qed.

(** A run on usable files with a job description and a non-empty
    vocabulary: the whole log. *)
Lemma main_success (job_description : string) (files : list File) :
  str_truthy job_description = true ->
  files <> [] ->
  Forall usable files ->
  vocabulary (job_description :: map text_of files) <> [] ->
  let results :=
    results_table job_description (map text_of files) (map name files) in
  main job_description files
  = (extraction_log files
     ++ [RankCall job_description (map text_of files);
         StMarkdown msg_ranking_results;
         StDataframe results;
         StDownloadButton (to_csv results) "resume_ranking.csv"],
     Ok tt).
Proof.
  intros Hjd Hne Hall Hv results; subst results.
  rewrite main_processes by (destruct files; [congruence | auto]).
  rewrite process_usable by assumption.
  rewrite rank_and_show_cases by now rewrite !length_map.
  destruct (vocabulary (job_description :: map text_of files));
    [congruence|].
  destruct files; [congruence | reflexivity].
Qed.

(** A run on usable files whose texts, with the job description, hold
    no term: the exception of the vectorizer leaves [main]. *)
Lemma main_empty_vocabulary (job_description : string) (files : list File) :
  str_truthy job_description = true ->
  files <> [] ->
  Forall usable files ->
  vocabulary (job_description :: map text_of files) = [] ->
  main job_description files
  = (extraction_log files
     ++ [RankCall job_description (map text_of files)],
     Raise (ValueError msg_empty_vocabulary)).
Proof.
  intros Hjd Hne Hall Hv.
  rewrite main_processes by (destruct files; [congruence | auto]).
  rewrite process_usable by assumption.
  rewrite rank_and_show_cases by now rewrite !length_map.
  now rewrite Hv.
Qed.



End DisplayFacts.

(** ** The insertion sort meets the contract *)

Section SorterFacts.

Local Open Scope R_scope.

Lemma descending_trans (a b c : row) :
  descending a b -> descending b c -> descending a c.
Proof. unfold descending; lra. Qed.

Lemma insert_before_ties_permutation (x : row) (l : list row) :
  Permutation (x :: l) (insert_before_ties x l).
Proof.
  induction l as [|y l IH]; simpl; [reflexivity|].
  destruct (Rlt_dec (Score x) (Score y)); [|reflexivity].
  rewrite perm_swap; now constructor.
Qed.

Lemma insert_before_ties_sorted (x : row) (l : list row) :
  StronglySorted descending l ->
  StronglySorted descending (insert_before_ties x l).
Proof.
  induction 1 as [|y l Hl IH Hy]; simpl; [repeat constructor|].
  destruct (Rlt_dec (Score x) (Score y)) as [Hlt|Hge].
  - constructor; [assumption|].
    apply (Permutation_Forall (insert_before_ties_permutation x l)).
    constructor; [unfold descending; lra | assumption].
  - constructor; [now constructor|].
    assert (Hxy : descending x y) by (unfold descending; lra).
    constructor; [assumption|].
    eapply Forall_impl; [|exact Hy].
    intros z Hz; exact (descending_trans _ _ _ Hxy Hz).
Qed.

Lemma stable_sorter_contract : SortContract stable_sorter.
Proof.
  split; intros rows; simpl; induction rows as [|x rows IH]; simpl.
  - reflexivity.
  - rewrite <- insert_before_ties_permutation; now constructor.
  - constructor.
  - now apply insert_before_ties_sorted.
Qed.

End SorterFacts.

(** ** The quicksort sorts *)

(** *** The array of positions *)

Lemma length_put (a : list nat) (p x : nat) :
  List.length (put a p x) = List.length a.
Proof.
  revert p; induction a as [|y a IH]; intros [|p]; simpl; auto.
Qed.

Lemma get_put_eq (a : list nat) (p x : nat) :
  (p < List.length a)%nat -> get (put a p x) p = x.
Proof.
  unfold get; revert p; induction a as [|y a IH]; intros [|p] Hp;
    simpl in *; try lia; auto.
  apply IH; lia.
Qed.

Lemma get_put_neq (a : list nat) (p q x : nat) :
  p <> q -> get (put a p x) q = get a q.
Proof.
  unfold get; revert p q; induction a as [|y a IH]; intros [|p] [|q] Hpq;
    simpl; try reflexivity; try congruence.
  apply IH; congruence.
Qed.

Lemma put_put_eq (a : list nat) (p x y : nat) :
  put (put a p x) p y = put a p y.
Proof.
  revert p; induction a as [|z a IH]; intros [|p]; simpl; auto.
  now rewrite IH.
Qed.

Lemma put_split (a : list nat) (p x : nat) :
  (p < List.length a)%nat ->
  put a p x = firstn p a ++ x :: skipn (S p) a.
Proof.
  revert p; induction a as [|y a IH]; intros [|p] Hp; simpl in *;
    try lia; auto.
  now rewrite IH by lia.
Qed.

Lemma get_split (a : list nat) (p : nat) :
  (p < List.length a)%nat ->
  a = firstn p a ++ get a p :: skipn (S p) a.
Proof.
  unfold get; revert p; induction a as [|y a IH]; intros [|p] Hp;
    simpl in *; try lia; auto.
  now rewrite <- IH by lia.
Qed.

Lemma put_get_same (a : list nat) (p : nat) :
  (p < List.length a)%nat -> put a p (get a p) = a.
Proof.
  intros Hp; rewrite put_split by assumption.
  symmetry; now apply get_split.
Qed.

Lemma Permutation_put (a : list nat) (p x : nat) :
  (p < List.length a)%nat ->
  Permutation (get a p :: put a p x) (x :: a).
Proof.
  intros Hp; rewrite put_split by assumption.
  rewrite (get_split a p Hp) at 4.
  rewrite <- !Permutation_middle.
  apply perm_swap.
Qed.

Lemma length_swap (a : list nat) (p q : nat) :
  List.length (swap a p q) = List.length a.
Proof. unfold swap; now rewrite !length_put. Qed.

Lemma get_swap (a : list nat) (p q r : nat) :
  (p < List.length a)%nat -> (q < List.length a)%nat ->
  get (swap a p q) r
  = if Nat.eq_dec r q then get a p
    else if Nat.eq_dec r p then get a q else get a r.
Proof.
  intros Hp Hq; unfold swap.
  destruct (Nat.eq_dec r q) as [->|Hrq].
  - apply get_put_eq; now rewrite length_put.
  - rewrite get_put_neq by congruence.
    destruct (Nat.eq_dec r p) as [->|Hrp].
    + now apply get_put_eq.
    + apply get_put_neq; congruence.
Qed.

Lemma Permutation_swap (a : list nat) (p q : nat) :
  (p < List.length a)%nat -> (q < List.length a)%nat ->
  Permutation a (swap a p q).
Proof.
  intros Hp Hq; unfold swap.
  destruct (Nat.eq_dec p q) as [->|Hpq].
  - now rewrite !put_get_same by (rewrite ?put_get_same; assumption).
  - assert (H1 := Permutation_put a p (get a q) Hp).
    assert (H2 := Permutation_put (put a p (get a q)) q (get a p)
                    ltac:(now rewrite length_put)).
    rewrite get_put_neq in H2 by assumption.
    apply (Permutation_cons_inv (a := get a q)); symmetry.
    etransitivity; [exact H2 | exact H1].
Qed.

(** *** Sorted lists *)

Lemma StronglySorted_nth {A : Type} (R : A -> A -> Prop) (d : A)
      (l : list A) :
  StronglySorted R l <->
  forall i j, (i < j < List.length l)%nat -> R (nth i l d) (nth j l d).
Proof.
  split.
  - induction 1 as [|x l _ IH Hx]; intros i j Hij; simpl in *; [lia|].
    destruct i as [|i], j as [|j]; try lia.
    + rewrite Forall_forall in Hx; apply Hx, nth_In; lia.
    + apply IH; lia.
  - induction l as [|x l IH]; intros H; constructor.
    + apply IH; intros i j Hij; apply (H (S i) (S j)); simpl; lia.
    + apply Forall_forall; intros y Hy.
      destruct (In_nth _ _ d Hy) as (j & Hj & <-).
      apply (H 0%nat (S j)); simpl; lia.
Qed.

Lemma StronglySorted_rev {A : Type} (R : A -> A -> Prop) (l : list A) :
  StronglySorted R l -> StronglySorted (fun x y => R y x) (rev l).
Proof.
  destruct l as [|d l']; [constructor|].
  set (l := d :: l'); intros H.
  rewrite (StronglySorted_nth R d) in H.
  apply (StronglySorted_nth _ d); intros i j Hij.
  rewrite length_rev in Hij.
  rewrite !rev_nth by lia.
  apply H; lia.
Qed.

Lemma StronglySorted_map {A B : Type} (R : B -> B -> Prop) (f : A -> B)
      (l : list A) :
  StronglySorted (fun x y => R (f x) (f y)) l ->
  StronglySorted R (map f l).
Proof.
  induction 1 as [|x l _ IH Hx]; simpl; constructor; [assumption|].
  now apply Forall_map.
Qed.

(** *** Comparisons, scans and the partition *)

Section PartitionFacts.

Variable key : nat -> R.

Local Open Scope R_scope.

Lemma less_key_true (i j : nat) :
  less_key key i j = true <-> key i < key j.
Proof.
  unfold less_key, Rltb; destruct (Rlt_dec (key i) (key j));
    split; auto; discriminate.
Qed.

Lemma less_key_false (i j : nat) :
  less_key key i j = false <-> key j <= key i.
Proof.
  unfold less_key, Rltb; destruct (Rlt_dec (key i) (key j));
    split; auto; try discriminate; lra.
Qed.

(** The scan upwards stops at or before a position that is not below the
    pivot, on the first such position. *)
Lemma scan_up_spec (fuel : nat) (a : list nat) (vp pi s : nat) :
  (pi < s)%nat -> (s - pi - 1 <= fuel)%nat ->
  key vp <= key (get a s) ->
  let r := scan_up (less_key key) fuel a vp pi in
  (pi < r <= s)%nat
  /\ key vp <= key (get a r)
  /\ forall p, (pi < p < r)%nat -> key (get a p) < key vp.
Proof.
  revert pi; induction fuel as [|fuel IH]; intros pi Hs Hfuel Hkey; simpl.
  - assert (s = S pi) by lia; subst s.
    repeat split; auto; lia.
  - destruct (less_key key (get a (S pi)) vp) eqn:Hless.
    + apply less_key_true in Hless.
      assert (Hne : s <> S pi) by (intros ->; lra).
      destruct (IH (S pi)) as (Hr & Hk & Hbelow); try lia; auto.
      repeat split; try lia; auto.
      intros p Hp; destruct (Nat.eq_dec p (S pi)) as [->|];
        [assumption | apply Hbelow; lia].
    + apply less_key_false in Hless.
      repeat split; auto; lia.
Qed.

Lemma scan_down_spec (fuel : nat) (a : list nat) (vp pj s : nat) :
  (s < pj)%nat -> (pj - s - 1 <= fuel)%nat ->
  key (get a s) <= key vp ->
  let r := scan_down (less_key key) fuel a vp pj in
  (s <= r < pj)%nat
  /\ key (get a r) <= key vp
  /\ forall p, (r < p < pj)%nat -> key vp < key (get a p).
Proof.
  revert pj; induction fuel as [|fuel IH]; intros pj Hs Hfuel Hkey; simpl.
  - assert (pj = S s) by lia; subst pj; simpl.
    repeat split; auto; lia.
  - destruct (less_key key vp (get a (pred pj))) eqn:Hless.
    + apply less_key_true in Hless.
      assert (Hne : s <> pred pj) by (intros ->; lra).
      destruct (IH (pred pj)) as (Hr & Hk & Habove); try lia; auto.
      repeat split; try lia; auto.
      intros p Hp; destruct (Nat.eq_dec p (pred pj)) as [->|];
        [assumption | apply Habove; lia].
    + apply less_key_false in Hless.
      repeat split; auto; lia.
Qed.

(** The loop of the partition, from a state in which the positions up to
    [pi] are at most the pivot, those from [pj] on are at least the
    pivot, and the pivot sits at [pr - 1]. *)
Lemma partition_loop_spec (fuel : nat) (a : list nat)
      (vp pl pr pi pj : nat) :
  (pl <= pi < pj)%nat -> (pj <= pr - 1)%nat ->
  (pr < List.length a)%nat ->
  (pj - pi <= fuel)%nat ->
  (forall p, (pl <= p <= pi)%nat -> key (get a p) <= key vp) ->
  (forall p, (pj <= p <= pr)%nat -> key vp <= key (get a p)) ->
  get a (pr - 1) = vp ->
  let (a', r) := partition_loop (less_key key) fuel a vp pi pj in
  List.length a' = List.length a
  /\ Permutation a a'
  /\ (forall p, (p <= pi \/ pj <= p)%nat -> get a' p = get a p)
  /\ (pi < r <= pj)%nat
  /\ (forall p, (pl <= p < r)%nat -> key (get a' p) <= key vp)
  /\ (forall p, (r <= p <= pr)%nat -> key vp <= key (get a' p)).
Proof.
  revert a pi pj; induction fuel as [|fuel IH];
    intros a pi pj Hpi Hpj Hpr Hfuel Hlow Hhigh Hvp; [lia|].
  cbn [partition_loop].
  destruct (scan_up_spec (List.length a) a vp pi pj)
    as (Hi & Hki & Hbelow); try lia.
  { apply Hhigh; lia. }
  destruct (scan_down_spec (List.length a) a vp pj pi)
    as (Hj & Hkj & Habove); try lia.
  { apply Hlow; lia. }
  set (pi' := scan_up (less_key key) (List.length a) a vp pi) in *.
  set (pj' := scan_down (less_key key) (List.length a) a vp pj) in *.
  destruct (pj' <=? pi')%nat eqn:Hcmp.
  - apply Nat.leb_le in Hcmp.
    repeat split; auto; try lia.
    + intros p Hp.
      destruct (le_lt_dec p pi); [apply Hlow; lia|].
      apply Rlt_le, Hbelow; lia.
    + intros p Hp.
      destruct (Nat.eq_dec p pi') as [->|]; [assumption|].
      destruct (le_lt_dec pj p); [apply Hhigh; lia|].
      apply Rlt_le, Habove; lia.
  - apply Nat.leb_gt in Hcmp.
    assert (Hswap : forall r,
               get (swap a pi' pj') r
               = if Nat.eq_dec r pj' then get a pi'
                 else if Nat.eq_dec r pi' then get a pj' else get a r)
      by (intros r; apply get_swap; lia).
    specialize (IH (swap a pi' pj') pi' pj').
    destruct (partition_loop (less_key key) fuel (swap a pi' pj') vp
                             pi' pj') as (a', r).
    rewrite length_swap in IH.
    destruct IH as (Hlen & Hperm & Hframe & Hr & Hlow' & Hhigh');
      try lia.
    + intros p Hp; rewrite Hswap.
      destruct (Nat.eq_dec p pj'); [lia|].
      destruct (Nat.eq_dec p pi'); [assumption|].
      destruct (le_lt_dec p pi); [apply Hlow; lia|].
      apply Rlt_le, Hbelow; lia.
    + intros p Hp; rewrite Hswap.
      destruct (Nat.eq_dec p pj'); [assumption|].
      destruct (Nat.eq_dec p pi'); [lia|].
      destruct (le_lt_dec pj p); [apply Hhigh; lia|].
      apply Rlt_le, Habove; lia.
    + rewrite Hswap.
      destruct (Nat.eq_dec (pr - 1) pj'); [lia|].
      destruct (Nat.eq_dec (pr - 1) pi'); [lia | assumption].
    + repeat split; auto; try lia.
      * etransitivity; [apply (Permutation_swap a pi' pj'); lia|].
        exact Hperm.
      * intros p Hp; rewrite Hframe by lia.
        rewrite Hswap.
        destruct (Nat.eq_dec p pj'); [lia|].
        destruct (Nat.eq_dec p pi'); [lia | reflexivity].
Qed.

(** One step of the median of three: two positions put in order. *)
Lemma order_pair (a : list nat) (p q : nat) :
  (p < List.length a)%nat -> (q < List.length a)%nat -> p <> q ->
  let a' :=
    if less_key key (get a q) (get a p) then swap a q p else a in
  List.length a' = List.length a
  /\ Permutation a a'
  /\ (forall r, r <> p -> r <> q -> get a' r = get a r)
  /\ key (get a' p) <= key (get a' q)
  /\ (get a' p = get a p /\ get a' q = get a q
      \/ get a' p = get a q /\ get a' q = get a p).
Proof.
  intros Hp Hq Hpq; cbv zeta.
  destruct (less_key key (get a q) (get a p)) eqn:Hless.
  - apply less_key_true in Hless.
    assert (Hswap := fun r => get_swap a q p r Hq Hp).
    repeat split.
    + apply length_swap.
    + now apply Permutation_swap.
    + intros r Hrp Hrq; rewrite Hswap.
      destruct (Nat.eq_dec r p); [congruence|].
      destruct (Nat.eq_dec r q); [congruence | reflexivity].
    + rewrite !Hswap.
      destruct (Nat.eq_dec p p); [|congruence].
      destruct (Nat.eq_dec q p); [congruence|].
      destruct (Nat.eq_dec q q); [lra | congruence].
    + right; rewrite !Hswap.
      destruct (Nat.eq_dec p p); [|congruence].
      destruct (Nat.eq_dec q p); [congruence|].
      destruct (Nat.eq_dec q q); [auto | congruence].
  - apply less_key_false in Hless.
    repeat split; auto.
Qed.

Lemma partition_spec (a : list nat) (pl pr : nat) :
  (pl + 2 <= pr)%nat -> (pr < List.length a)%nat ->
  let (a', r) := partition (less_key key) a pl pr in
  partitioned key a a' pl pr r.
Proof.
  intros Hrange Hpr; unfold partition.
  set (pm := (pl + (pr - pl) / 2)%nat).
  assert (Hpm : (pl < pm < pr)%nat).
  { unfold pm.
    assert (1 <= (pr - pl) / 2)%nat
      by (apply Nat.div_le_lower_bound; lia).
    assert ((pr - pl) / 2 < pr - pl)%nat
      by (apply Nat.div_lt; lia).
    lia. }
  destruct (order_pair a pl pm) as (Hl1 & Hp1 & Hf1 & Hk1 & Hc1);
    try lia.
  set (a1 := if less_key key (get a pm) (get a pl) then swap a pm pl
             else a) in *.
  destruct (order_pair a1 pm pr) as (Hl2 & Hp2 & Hf2 & Hk2 & Hc2);
    try lia.
  set (a2 := if less_key key (get a1 pr) (get a1 pm) then swap a1 pr pm
             else a1) in *.
  destruct (order_pair a2 pl pm) as (Hl3 & Hp3 & Hf3 & Hk3 & Hc3);
    try lia.
  set (a3 := if less_key key (get a2 pm) (get a2 pl) then swap a2 pm pl
             else a2) in *.
  assert (Hk3' : key (get a3 pm) <= key (get a3 pr)).
  { rewrite (Hf3 pr) by lia.
    assert (Ha2 : get a2 pl = get a1 pl) by (apply Hf2; lia).
    destruct Hc3 as [(_ & ->)|(_ & ->)]; [assumption|].
    rewrite Ha2.
    destruct Hc2 as [(E1 & E2)|(E1 & E2)]; rewrite E1, E2 in Hk2;
      rewrite E2; lra. }
  set (vp := get a3 pm).
  assert (Hswap4 := fun r => get_swap a3 pm (pr - 1) r
                              ltac:(lia) ltac:(lia)).
  set (a4 := swap a3 pm (pr - 1)) in *.
  assert (Hl4 : List.length a4 = List.length a)
    by (unfold a4; rewrite length_swap; lia).
  assert (Hloop := partition_loop_spec (List.length a4) a4 vp pl pr pl
                                       (pr - 1)).
  destruct (partition_loop (less_key key) (List.length a4) a4 vp pl
                           (pr - 1)) as (a5, r).
  destruct Hloop as (Hl5 & Hp5 & Hf5 & Hr & Hlow & Hhigh); try lia.
  { intros p Hp; assert (p = pl) by lia; subst p.
    rewrite Hswap4.
    destruct (Nat.eq_dec pl (pr - 1)); [lia|].
    destruct (Nat.eq_dec pl pm); [lia | exact Hk3]. }
  { intros p Hp; rewrite Hswap4.
    destruct (Nat.eq_dec p (pr - 1)); [unfold vp; lra|].
    destruct (Nat.eq_dec p pm); [lia|].
    assert (p = pr) by lia; subst p; exact Hk3'. }
  { rewrite Hswap4.
    destruct (Nat.eq_dec (pr - 1) (pr - 1)); [reflexivity | congruence]. }
  assert (Hvp5 : get a5 (pr - 1) = vp).
  { rewrite Hf5 by lia; rewrite Hswap4.
    destruct (Nat.eq_dec (pr - 1) (pr - 1)); [reflexivity | congruence]. }
  assert (Hswap6 := fun q => get_swap a5 r (pr - 1) q
                              ltac:(lia) ltac:(lia)).
  assert (Hpivot : get (swap a5 r (pr - 1)) r = vp).
  { rewrite Hswap6.
    destruct (Nat.eq_dec r (pr - 1)) as [->|]; [|
      destruct (Nat.eq_dec r r); [assumption | congruence]].
    assumption. }
  split.
  - rewrite length_swap; lia.
  - rewrite Hp1, Hp2, Hp3.
    etransitivity; [apply (Permutation_swap a3 pm (pr - 1)); lia|].
    fold a4; rewrite Hp5; apply Permutation_swap; lia.
  - intros p Hp; rewrite Hswap6.
    destruct (Nat.eq_dec p (pr - 1)); [lia|].
    destruct (Nat.eq_dec p r); [lia|].
    rewrite Hf5 by lia; rewrite Hswap4.
    destruct (Nat.eq_dec p (pr - 1)); [lia|].
    destruct (Nat.eq_dec p pm); [lia|].
    rewrite Hf3, Hf2, Hf1 by lia; reflexivity.
  - lia.
  - intros p Hp; rewrite Hpivot, Hswap6.
    destruct (Nat.eq_dec p (pr - 1)); [lia|].
    destruct (Nat.eq_dec p r); [lia|].
    apply Hlow; lia.
  - intros p Hp; rewrite Hpivot, Hswap6.
    destruct (Nat.eq_dec p (pr - 1)); [apply Hhigh; lia|].
    destruct (Nat.eq_dec p r); [lia|].
    apply Hhigh; lia.
Qed.

End PartitionFacts.

(** *** The insertion sort *)

Section InsertionSortFacts.

Variable key : nat -> R.

Local Open Scope R_scope.

Lemma insert_sorted_permutation (x : nat) (l : list nat) :
  Permutation (x :: l) (insert_sorted (less_key key) x l).
Proof.
  induction l as [|y l IH]; simpl; [reflexivity|].
  destruct (less_key key x y); [|reflexivity].
  rewrite perm_swap; now constructor.
Qed.

Lemma insert_sorted_sorted (x : nat) (l : list nat) :
  StronglySorted (at_least key) l ->
  StronglySorted (at_least key) (insert_sorted (less_key key) x l).
Proof.
  induction 1 as [|y l Hl IH Hy]; simpl; [repeat constructor|].
  destruct (less_key key x y) eqn:Hless.
  - apply less_key_true in Hless.
    constructor; [assumption|].
    apply (Permutation_Forall (insert_sorted_permutation x l)).
    constructor; [unfold at_least; lra | assumption].
  - apply less_key_false in Hless.
    constructor; [now constructor|].
    constructor; [assumption|].
    eapply Forall_impl; [|exact Hy].
    unfold at_least; intros z Hz; lra.
Qed.

Lemma fold_insert_sorted (l acc : list nat) :
  let sorted :=
    fold_left (fun prefix_rev x => insert_sorted (less_key key) x prefix_rev)
              l acc in
  Permutation (l ++ acc) sorted
  /\ (StronglySorted (at_least key) acc ->
      StronglySorted (at_least key) sorted).
Proof.
  revert acc; induction l as [|x l IH]; intros acc; simpl.
  - split; [reflexivity | auto].
  - destruct (IH (insert_sorted (less_key key) x acc)) as (Hperm & Hsorted).
    split.
    + rewrite <- Hperm, <- insert_sorted_permutation.
      apply Permutation_middle.
    + intros Hacc; apply Hsorted, insert_sorted_sorted, Hacc.
Qed.

Lemma insertion_sort_sorts (l : list nat) :
  Permutation l (insertion_sort (less_key key) l)
  /\ StronglySorted (at_most key) (insertion_sort (less_key key) l).
Proof.
  unfold insertion_sort.
  destruct (fold_insert_sorted l []) as (Hperm & Hsorted).
  split.
  - rewrite <- Permutation_rev, <- Hperm, app_nil_r; reflexivity.
  - apply (StronglySorted_rev (at_least key)), Hsorted; constructor.
Qed.

End InsertionSortFacts.

(** *** Parts of the array *)

Section RangeFacts.

Variable key : nat -> R.

Local Open Scope R_scope.

Lemma part_split (a : list nat) (pl pr : nat) :
  (pl <= S pr)%nat ->
  a = firstn pl a ++ part a pl pr ++ skipn (S pr) a.
Proof.
  intros Hle; unfold part.
  rewrite <- (firstn_skipn pl a) at 1; f_equal.
  rewrite <- (firstn_skipn (S pr - pl) (skipn pl a)) at 1; f_equal.
  rewrite skipn_skipn; f_equal; lia.
Qed.

Lemma length_part (a : list nat) (pl pr : nat) :
  (pr < List.length a)%nat -> List.length (part a pl pr) = (S pr - pl)%nat.
Proof.
  intros Hpr; unfold part; rewrite length_firstn, length_skipn; lia.
Qed.

Lemma get_part (a : list nat) (pl pr p : nat) :
  (pl <= p <= pr)%nat -> nth (p - pl) (part a pl pr) 0%nat = get a p.
Proof.
  intros Hp; unfold part, get.
  rewrite nth_firstn, nth_skipn.
  replace (p - pl <? S pr - pl)%nat with true
    by (symmetry; apply Nat.ltb_lt; lia).
  f_equal; lia.
Qed.

(** An array of which only the part [pl .. pr] was replaced. *)
Lemma get_replaced (a sorted : list nat) (pl pr p : nat) :
  (pl <= pr < List.length a)%nat ->
  List.length sorted = (S pr - pl)%nat ->
  get (firstn pl a ++ sorted ++ skipn (S pr) a) p
  = if (p <? pl)%nat then get a p
    else if (pr <? p)%nat then get a p
         else nth (p - pl) sorted 0%nat.
Proof.
  intros Hrange Hlen; unfold get.
  assert (Hfirst : List.length (firstn pl a) = pl)
    by (rewrite length_firstn; lia).
  destruct (p <? pl)%nat eqn:Hlow.
  - apply Nat.ltb_lt in Hlow.
    rewrite app_nth1 by lia.
    rewrite nth_firstn.
    now replace (p <? pl)%nat with true
      by (symmetry; apply Nat.ltb_lt; lia).
  - apply Nat.ltb_ge in Hlow.
    rewrite app_nth2, Hfirst by lia.
    destruct (pr <? p)%nat eqn:Hhigh.
    + apply Nat.ltb_lt in Hhigh.
      rewrite app_nth2, Hlen by lia.
      rewrite nth_skipn; f_equal; lia.
    + apply Nat.ltb_ge in Hhigh.
      now rewrite app_nth1 by lia.
Qed.

Lemma sorted_range_replaced (a sorted : list nat) (pl pr : nat) :
  (pl <= pr < List.length a)%nat ->
  Permutation (part a pl pr) sorted ->
  StronglySorted (at_most key) sorted ->
  sorted_range key a (firstn pl a ++ sorted ++ skipn (S pr) a) pl pr.
Proof.
  intros Hrange Hperm Hsorted.
  assert (Hlen : List.length sorted = (S pr - pl)%nat)
    by (rewrite <- (Permutation_length Hperm); apply length_part; lia).
  split.
  - rewrite !length_app, Hlen, length_firstn, length_skipn; lia.
  - rewrite (part_split a pl pr) at 1 by lia.
    now apply Permutation_app_head, Permutation_app_tail.
  - intros p Hp; rewrite get_replaced by assumption.
    destruct (p <? pl)%nat eqn:Hlow; [reflexivity|].
    destruct (pr <? p)%nat eqn:Hhigh; [reflexivity|].
    apply Nat.ltb_ge in Hlow, Hhigh; lia.
  - intros p q Hp Hq; rewrite !get_replaced by assumption.
    replace (p <? pl)%nat with false by (symmetry; apply Nat.ltb_ge; lia).
    replace (q <? pl)%nat with false by (symmetry; apply Nat.ltb_ge; lia).
    replace (pr <? p)%nat with false by (symmetry; apply Nat.ltb_ge; lia).
    replace (pr <? q)%nat with false by (symmetry; apply Nat.ltb_ge; lia).
    apply (StronglySorted_nth (at_most key) 0%nat); [assumption | lia].
Qed.

(** A property of every position of the part still holds of every
    position once the part is rearranged. *)
Lemma part_transfer (a a' : list nat) (pl pr : nat) (Q : nat -> Prop) :
  (pl <= pr < List.length a)%nat ->
  List.length a' = List.length a ->
  Permutation a a' ->
  (forall p, (p < pl \/ pr < p)%nat -> get a' p = get a p) ->
  (forall p, (pl <= p <= pr)%nat -> Q (get a p)) ->
  forall p, (pl <= p <= pr)%nat -> Q (get a' p).
Proof.
  intros Hrange Hlen Hperm Hframe HQ p Hp.
  assert (Hfirst : firstn pl a' = firstn pl a).
  { apply (nth_ext _ _ 0%nat 0%nat).
    - rewrite !length_firstn; lia.
    - intros i Hi; rewrite length_firstn in Hi.
      rewrite !nth_firstn.
      destruct (i <? pl)%nat eqn:Hlt; [|reflexivity].
      apply Nat.ltb_lt in Hlt; apply Hframe; lia. }
  assert (Hlast : skipn (S pr) a' = skipn (S pr) a).
  { apply (nth_ext _ _ 0%nat 0%nat).
    - rewrite !length_skipn; lia.
    - intros i Hi; rewrite !nth_skipn; apply Hframe; lia. }
  assert (Hpart : Permutation (part a pl pr) (part a' pl pr)).
  { rewrite (part_split a pl pr), (part_split a' pl pr) in Hperm by lia.
    rewrite Hfirst, Hlast in Hperm.
    apply Permutation_app_inv_l in Hperm.
    now apply Permutation_app_inv_r in Hperm. }
  rewrite <- (get_part a' pl pr p Hp).
  assert (Hin : In (nth (p - pl) (part a' pl pr) 0%nat) (part a pl pr)).
  { apply (Permutation_in _ (Permutation_sym Hpart)), nth_In.
    rewrite length_part; lia. }
  destruct (In_nth _ _ 0%nat Hin) as (i & Hi & <-).
  rewrite length_part in Hi by lia.
  replace i with ((pl + i) - pl)%nat by lia.
  rewrite get_part by lia; apply HQ; lia.
Qed.

Lemma sorted_range_transfer (a a' : list nat) (pl pr : nat)
      (Q : nat -> Prop) :
  (pl <= pr < List.length a)%nat ->
  sorted_range key a a' pl pr ->
  (forall p, (pl <= p <= pr)%nat -> Q (get a p)) ->
  forall p, (pl <= p <= pr)%nat -> Q (get a' p).
Proof.
  intros Hrange [Hlen Hperm Hframe _]; now apply part_transfer.
Qed.

Lemma both_sorted_sym (a a' : list nat) (xl xr yl yr : nat) :
  both_sorted key a a' xl xr yl yr -> both_sorted key a a' yl yr xl xr.
Proof. intros []; split; auto. Qed.

Lemma sorted_range_both (a1 a2 a3 : list nat) (xl xr yl yr : nat) :
  (xl <= xr < List.length a1)%nat ->
  (yl <= yr < List.length a1)%nat ->
  (xr < yl \/ yr < xl)%nat ->
  sorted_range key a1 a2 xl xr ->
  sorted_range key a2 a3 yl yr ->
  both_sorted key a1 a3 xl xr yl yr.
Proof.
  intros Hx Hy Hapart H12 H23.
  assert (Hl2 := sorted_length _ _ _ _ _ H12).
  assert (Hf2 := sorted_frame _ _ _ _ _ H12).
  assert (Hf3 := sorted_frame _ _ _ _ _ H23).
  split.
  - rewrite (sorted_length _ _ _ _ _ H23); exact Hl2.
  - etransitivity; [exact (sorted_perm _ _ _ _ _ H12)|].
    exact (sorted_perm _ _ _ _ _ H23).
  - intros p Hpx Hpy; rewrite Hf3, Hf2 by assumption; reflexivity.
  - intros p q Hp Hq; rewrite !Hf3 by lia.
    now apply (sorted_keys _ _ _ _ _ H12).
  - apply (sorted_keys _ _ _ _ _ H23).
  - intros Q HQ p Hp; rewrite Hf3 by lia.
    now apply (sorted_range_transfer a1 a2 xl xr Q Hx H12).
  - intros Q HQ.
    apply (sorted_range_transfer a2 a3 yl yr Q); [lia | assumption|].
    intros p Hp; rewrite Hf2 by lia; now apply HQ.
Qed.

(** A partition whose two sides are sorted is sorted. *)
Lemma sorted_range_join (a a1 a3 : list nat) (pl pr r : nat) :
  partitioned key a a1 pl pr r ->
  both_sorted key a1 a3 pl (r - 1) (r + 1) pr ->
  sorted_range key a a3 pl pr.
Proof.
  intros [Hl1 Hp1 Hf1 Hr Hbelow Habove] [Hl3 Hp3 Hf3 Hkx Hky Htx Hty].
  assert (Hpivot : get a3 r = get a1 r) by (apply Hf3; lia).
  assert (Hleft : forall p, (pl <= p <= r - 1)%nat ->
                            key (get a3 p) <= key (get a1 r)).
  { apply (Htx (fun v => key v <= key (get a1 r))).
    intros p Hp; apply Hbelow; lia. }
  assert (Hright : forall p, (r + 1 <= p <= pr)%nat ->
                             key (get a1 r) <= key (get a3 p)).
  { apply (Hty (fun v => key (get a1 r) <= key v)).
    intros p Hp; apply Habove; lia. }
  split.
  - lia.
  - now rewrite Hp1.
  - intros p Hp; rewrite Hf3, Hf1 by lia; reflexivity.
  - intros p q Hp Hq.
    destruct (lt_eq_lt_dec q r) as [[Hqr|Hqr]|Hqr].
    + apply Hkx; lia.
    + subst q; rewrite Hpivot; apply Hleft; lia.
    + destruct (lt_eq_lt_dec p r) as [[Hpr|Hpr]|Hpr].
      * apply Rle_trans with (key (get a1 r));
          [apply Hleft | apply Hright]; lia.
      * subst p; rewrite Hpivot; apply Hright; lia.
      * apply Hky; lia.
Qed.

End RangeFacts.

(** *** The heap sort *)

Section HeapsortFacts.

Variable key : nat -> R.
Variable pl : nat.

Local Open Scope R_scope.

Lemma heap_get_put (a : list nat) (i k x : nat) :
  (1 <= i)%nat -> (1 <= k)%nat -> (pl + i - 1 < List.length a)%nat ->
  heap_get (heap_put a pl i x) pl k
  = if Nat.eq_dec k i then x else heap_get a pl k.
Proof.
  intros Hi Hk Hlen; unfold heap_get, heap_put.
  destruct (Nat.eq_dec k i) as [->|Hne].
  - now apply get_put_eq.
  - apply get_put_neq; lia.
Qed.

(** [tmp] stays at the hole when nothing below the hole is above it. *)
Lemma sift_stop (a : list nat) (lo n i tmp : nat) :
  (1 <= lo <= i)%nat -> (i <= n)%nat ->
  (pl + n - 1 < List.length a)%nat ->
  heap_around key pl a lo n i tmp ->
  ((2 * i <= n)%nat -> key (heap_get a pl (2 * i)) <= key tmp) ->
  ((2 * i + 1 <= n)%nat -> key (heap_get a pl (2 * i + 1)) <= key tmp) ->
  sifted key pl a (heap_put a pl i tmp) lo n i tmp.
Proof.
  intros Hlo Hin Hlen (Hedges & Habove) Hleft Hright.
  split; [apply length_put|].
  split; [reflexivity|].
  split.
  { intros p Hp; unfold heap_put; apply get_put_neq; lia. }
  intros k Hk.
  rewrite !heap_get_put by lia.
  destruct (Nat.eq_dec k i) as [->|Hki].
  - destruct (Nat.eq_dec (2 * i) i); [lia|].
    destruct (Nat.eq_dec (2 * i + 1) i); [lia|].
    split; assumption.
  - destruct (Hedges k Hk Hki) as (He1 & He2).
    destruct (Nat.eq_dec (2 * k) i) as [Hc|Hc].
    + destruct (Nat.eq_dec (2 * k + 1) i); [lia|].
      destruct (Habove k Hk (or_introl Hc)) as (Htmp & _).
      split; [intros _; exact Htmp | intros Hn; apply He2; lia].
    + destruct (Nat.eq_dec (2 * k + 1) i) as [Hc'|Hc'].
      * destruct (Habove k Hk (or_intror Hc')) as (Htmp & _).
        split; [intros Hn; apply He1; lia | intros _; exact Htmp].
      * split; intros Hn; [apply He1 | apply He2]; lia.
Qed.

Lemma sift_down_spec (fuel : nat) (a : list nat) (lo n i tmp : nat) :
  (1 <= lo <= i)%nat -> (i <= n)%nat ->
  (pl + n - 1 < List.length a)%nat ->
  (n - i < fuel)%nat ->
  heap_around key pl a lo n i tmp ->
  sifted key pl a
         (sift_down (less_key key) fuel a pl n tmp i (i + i)) lo n i tmp.
Proof.
  revert a i; induction fuel as [|fuel IH];
    intros a i Hlo Hin Hlen Hfuel Hheap; [lia|].
  cbn [sift_down].
  destruct (i + i <=? n)%nat eqn:Hchild.
  2:{ apply Nat.leb_gt in Hchild.
      apply sift_stop; auto; intros; lia. }
  apply Nat.leb_le in Hchild.
  set (j := if ((i + i <? n)%nat
                && less_key key (heap_get a pl (i + i))
                            (heap_get a pl (i + i + 1)))%bool
            then (i + i + 1)%nat else (i + i)%nat).
  assert (Hj : (j = 2 * i \/ j = 2 * i + 1)%nat /\ (j <= n)%nat
               /\ key (heap_get a pl (2 * i)) <= key (heap_get a pl j)
               /\ ((2 * i + 1 <= n)%nat ->
                   key (heap_get a pl (2 * i + 1))
                   <= key (heap_get a pl j))).
  { unfold j; replace (i + i)%nat with (2 * i)%nat by lia.
    destruct (2 * i <? n)%nat eqn:Hlt; cbn [andb].
    - apply Nat.ltb_lt in Hlt.
      destruct (less_key key (heap_get a pl (2 * i))
                         (heap_get a pl (2 * i + 1))) eqn:Hless.
      + apply less_key_true in Hless.
        repeat split; intros; try lia; lra.
      + apply less_key_false in Hless.
        repeat split; intros; try lia; lra.
    - apply Nat.ltb_ge in Hlt.
      repeat split; intros; try lia; lra. }
  destruct Hj as (Hj & Hjn & Hjl & Hjr).
  destruct (less_key key tmp (heap_get a pl j)) eqn:Hless.
  2:{ apply less_key_false in Hless.
      apply sift_stop; auto; intros; [|specialize (Hjr ltac:(lia))]; lra. }
  apply less_key_true in Hless.
  destruct Hheap as (Hedges & Habove).
  set (a2 := heap_put a pl i (heap_get a pl j)).
  assert (Hget2 : forall k, (1 <= k)%nat ->
             heap_get a2 pl k
             = if Nat.eq_dec k i then heap_get a pl j else heap_get a pl k)
    by (intros k Hk; apply heap_get_put; lia).
  destruct (IH a2 j) as (Hl' & Hp' & Hf' & Hh'); try lia.
  { unfold a2, heap_put; rewrite length_put; lia. }
  { split.
    - intros k Hk Hkj; rewrite !Hget2 by lia.
      destruct (Nat.eq_dec k i) as [->|Hki].
      + destruct (Nat.eq_dec (2 * i) i); [lia|].
        destruct (Nat.eq_dec (2 * i + 1) i); [lia|].
        split; intros Hn Hne; [lra|].
        apply Hjr; lia.
      + destruct (Hedges k Hk Hki) as (He1 & He2).
        destruct (Nat.eq_dec (2 * k) i) as [Hc|Hc].
        * destruct (Nat.eq_dec (2 * k + 1) i); [lia|].
          destruct (Habove k Hk (or_introl Hc)) as (_ & Hl & Hr).
          split; [|intros Hn Hne; apply He2; lia].
          intros _ _; destruct Hj as [-> | ->]; [apply Hl | apply Hr]; lia.
        * destruct (Nat.eq_dec (2 * k + 1) i) as [Hc'|Hc'].
          -- destruct (Habove k Hk (or_intror Hc')) as (_ & Hl & Hr).
             split; [intros Hn Hne; apply He1; lia|].
             intros _ _; destruct Hj as [-> | ->];
               [apply Hl | apply Hr]; lia.
          -- split; intros Hn Hne; [apply He1 | apply He2]; lia.
    - intros k Hk Hkj; rewrite !Hget2 by lia.
      assert (k = i) by lia; subst k.
      destruct (Nat.eq_dec i i); [|congruence].
      destruct (Nat.eq_dec (2 * j) i); [lia|].
      destruct (Nat.eq_dec (2 * j + 1) i); [lia|].
      destruct (Hedges j ltac:(lia) ltac:(lia)) as (He1 & He2).
      split; [lra|].
      split; intros Hn; [apply He1 | apply He2]; lia. }
  split; [unfold a2, heap_put in Hl'; rewrite length_put in Hl'; exact Hl'|].
  split.
  { etransitivity; [|exact Hp'].
    unfold a2, heap_put.
    set (p := (pl + i - 1)%nat); set (q := (pl + j - 1)%nat).
    assert (Hswap : swap (put a p tmp) p q
                    = put (put a p (heap_get a pl j)) q tmp).
    { unfold swap, heap_get; fold q.
      rewrite get_put_neq by (unfold p, q; lia).
      rewrite get_put_eq by (unfold p; lia).
      now rewrite put_put_eq. }
    rewrite <- Hswap.
    apply Permutation_swap; rewrite length_put; unfold p, q; lia. }
  split; [|exact Hh'].
  intros p Hp; rewrite Hf' by lia.
  unfold a2, heap_put; apply get_put_neq; lia.
Qed.

(** The root of a heap is its largest position. *)
Lemma heap_root_max (a : list nat) (n k : nat) :
  heap_from key pl a 1 n -> (1 <= k <= n)%nat ->
  key (heap_get a pl k) <= key (heap_get a pl 1).
Proof.
  intros Hheap; induction k as [k IH] using lt_wf_ind; intros Hk.
  destruct (Nat.eq_dec k 1) as [->|Hne]; [lra|].
  assert (Hdiv := Nat.div_mod_eq k 2).
  assert (Hmod := Nat.mod_upper_bound k 2 ltac:(lia)).
  set (k' := (k / 2)%nat) in *; set (r := (k mod 2)%nat) in *.
  destruct (Hheap k' ltac:(lia)) as (He1 & He2).
  apply Rle_trans with (key (heap_get a pl k')); [|apply IH; lia].
  destruct (Nat.eq_dec r 0) as [Hr|Hr].
  - replace k with (2 * k')%nat by lia; apply He1; lia.
  - replace k with (2 * k' + 1)%nat by lia; apply He2; lia.
Qed.

Lemma build_heap_spec (l : nat) (a : list nat) (n : nat) :
  (l <= n)%nat -> (pl + n - 1 < List.length a)%nat ->
  heap_from key pl a (l + 1) n ->
  let a' := build_heap (less_key key) l a pl n in
  List.length a' = List.length a
  /\ Permutation a a'
  /\ (forall p, (p < pl \/ pl + n - 1 < p)%nat -> get a' p = get a p)
  /\ heap_from key pl a' 1 n.
Proof.
  revert a; induction l as [|l IH]; intros a Hl Hlen Hheap; cbn [build_heap].
  { split; [reflexivity|]; split; [reflexivity|].
    split; [reflexivity | exact Hheap]. }
  destruct (sift_down_spec n a (S l) n (S l) (heap_get a pl (S l)))
    as (Hl1 & Hp1 & Hf1 & Hh1); try lia.
  { split.
    - intros k Hk Hne; destruct (Hheap k ltac:(lia)) as (He1 & He2).
      split; intros Hn _; [apply He1 | apply He2]; lia.
    - intros k Hk Hc; lia. }
  unfold heap_put, heap_get in Hp1; rewrite put_get_same in Hp1 by lia.
  set (a1 := sift_down (less_key key) n a pl n (heap_get a pl (S l))
                       (S l) (S l + S l)) in *.
  destruct (IH a1) as (Hl2 & Hp2 & Hf2 & Hh2); try lia.
  { now replace (l + 1)%nat with (S l) by lia. }
  split; [lia|]; split; [now rewrite Hp1|]; split; [|exact Hh2].
  intros p Hp; rewrite Hf2, Hf1 by lia; reflexivity.
Qed.

(** The second loop, from a heap of [m] positions below a sorted tail
    that is above the heap. *)
Lemma sort_heap_spec (m : nat) (a : list nat) (n : nat) :
  (1 <= m <= n)%nat -> (pl + n - 1 < List.length a)%nat ->
  heap_from key pl a 1 m ->
  (forall p q, (m < p < q)%nat -> (q <= n)%nat ->
               key (heap_get a pl p) <= key (heap_get a pl q)) ->
  (forall k t, (1 <= k <= m)%nat -> (m < t <= n)%nat ->
               key (heap_get a pl k) <= key (heap_get a pl t)) ->
  let a' := sort_heap (less_key key) m a pl in
  List.length a' = List.length a
  /\ Permutation a a'
  /\ (forall p, (p < pl \/ pl + m - 1 < p)%nat -> get a' p = get a p)
  /\ (forall p q, (1 <= p < q)%nat -> (q <= n)%nat ->
                  key (heap_get a' pl p) <= key (heap_get a' pl q)).
Proof.
  revert a; induction m as [|m' IH]; intros a Hm Hlen Hheap Htail Hcut;
    [lia|].
  cbn [sort_heap]; destruct m' as [|m''].
  { split; [reflexivity|]; split; [reflexivity|]; split; [reflexivity|].
    intros p q Hp Hq; destruct (Nat.eq_dec p 1) as [->|];
      [apply Hcut | apply Htail]; lia. }
  remember (S m'') as m' eqn:Em'; remember (S m') as m eqn:Em.
  set (tmp := heap_get a pl m).
  set (a1 := heap_put a pl m (heap_get a pl 1)).
  assert (Hget1 : forall k, (1 <= k)%nat ->
             heap_get a1 pl k
             = if Nat.eq_dec k m then heap_get a pl 1 else heap_get a pl k)
    by (intros k Hk; apply heap_get_put; lia).
  assert (Hl1 : List.length a1 = List.length a) by apply length_put.
  destruct (sift_down_spec m' a1 1 m' 1 tmp)
    as (Hl2 & Hp2 & Hf2 & Hh2); try lia.
  { split.
    - intros k Hk Hne; destruct (Hheap k ltac:(lia)) as (He1 & He2).
      split; intros Hn _; rewrite !Hget1 by lia.
      + destruct (Nat.eq_dec k m); [lia|].
        destruct (Nat.eq_dec (2 * k) m); [lia|].
        apply He1; lia.
      + destruct (Nat.eq_dec k m); [lia|].
        destruct (Nat.eq_dec (2 * k + 1) m); [lia|].
        apply He2; lia.
    - intros k Hk Hc; lia. }
  change (1 + 1)%nat with 2%nat in *.
  set (a2 := sift_down (less_key key) m' a1 pl m' tmp 1 2) in *.
  set (V := heap_put a1 pl 1 tmp) in *.
  assert (HV : V = swap a (pl + m - 1) (pl + 1 - 1))
    by reflexivity.
  assert (HgetV : forall k, (1 <= k)%nat ->
             heap_get V pl k
             = if Nat.eq_dec k 1 then tmp
               else if Nat.eq_dec k m then heap_get a pl 1
                    else heap_get a pl k).
  { intros k Hk; unfold V; rewrite heap_get_put by lia.
    destruct (Nat.eq_dec k 1); [reflexivity | now apply Hget1]. }
  assert (Hfv : forall p, (p < pl \/ pl + m' - 1 < p)%nat ->
                          get a2 p = get V p).
  { intros p Hp; rewrite Hf2 by lia.
    unfold V, heap_put; symmetry; apply get_put_neq; lia. }
  assert (Hold : forall k, (1 <= k <= m')%nat ->
             key (heap_get a2 pl k) <= key (heap_get a pl 1)
             /\ forall t, (m < t <= n)%nat ->
                          key (heap_get a2 pl k) <= key (heap_get a pl t)).
  { intros k Hk; unfold heap_get at 1 3.
    apply (part_transfer V a2 pl (pl + m' - 1)
             (fun v => key v <= key (heap_get a pl 1)
                       /\ forall t, (m < t <= n)%nat ->
                                    key v <= key (heap_get a pl t)));
      try lia; auto.
    - unfold V, heap_put; rewrite length_put; lia.
    - unfold V, heap_put; rewrite length_put; lia.
    - intros p Hp.
      replace (get V p) with (heap_get V pl (p - pl + 1))
        by (unfold heap_get; f_equal; lia).
      rewrite HgetV by lia.
      destruct (Nat.eq_dec (p - pl + 1) 1).
      + split; [apply (heap_root_max a m) | intros t Ht; apply Hcut];
          auto; lia.
      + destruct (Nat.eq_dec (p - pl + 1) m); [lia|].
        split; [apply (heap_root_max a m) | intros t Ht; apply Hcut];
          auto; lia. }
  assert (Hget2 : forall t, (m' < t)%nat ->
             heap_get a2 pl t
             = if Nat.eq_dec t m then heap_get a pl 1 else heap_get a pl t).
  { intros t Ht; unfold heap_get at 1; rewrite Hf2 by lia.
    now apply (Hget1 t); lia. }
  destruct (IH a2) as (Hl3 & Hp3 & Hf3 & Hs3); try lia.
  - exact Hh2.
  - intros p q Hp Hq; rewrite !Hget2 by lia.
    destruct (Nat.eq_dec q m); [lia|].
    destruct (Nat.eq_dec p m) as [->|]; [apply Hcut | apply Htail]; lia.
  - intros k t Hk Ht; rewrite (Hget2 t) by lia.
    destruct (Hold k ltac:(lia)) as (Hroot & Hrest).
    destruct (Nat.eq_dec t m); [exact Hroot | apply Hrest; lia].
  - split; [lia|]; split; [|split; [|exact Hs3]].
    + rewrite <- Hp3, <- Hp2; fold V; rewrite HV.
      apply Permutation_swap; lia.
    + intros p Hp; rewrite Hf3, Hf2 by lia.
      unfold a1, heap_put; apply get_put_neq; lia.
Qed.

Lemma aheapsort_spec (a : list nat) (pr : nat) :
  (pl <= pr < List.length a)%nat ->
  sorted_range key a (aheapsort (less_key key) a pl pr) pl pr.
Proof.
  intros Hrange; unfold aheapsort.
  remember (pr - pl + 1)%nat as n eqn:En.
  assert (Hhalf : (n / 2 <= n)%nat /\ (n < 2 * (n / 2 + 1))%nat).
  { assert (Hdiv := Nat.div_mod_eq n 2).
    assert (Hmod := Nat.mod_upper_bound n 2 ltac:(lia)).
    lia. }
  destruct (build_heap_spec (n / 2) a n) as (Hl1 & Hp1 & Hf1 & Hh1);
    try lia.
  { intros k Hk; split; intros Hn; lia. }
  set (a1 := build_heap (less_key key) (n / 2) a pl n) in *.
  destruct (sort_heap_spec n a1 n) as (Hl2 & Hp2 & Hf2 & Hs2); try lia.
  { exact Hh1. }
  set (a2 := sort_heap (less_key key) n a1 pl) in *.
  split.
  - lia.
  - now rewrite Hp1.
  - intros p Hp; rewrite Hf2, Hf1 by lia; reflexivity.
  - intros p q Hp Hq.
    replace (get a2 p) with (heap_get a2 pl (p - pl + 1))
      by (unfold heap_get; f_equal; lia).
    replace (get a2 q) with (heap_get a2 pl (q - pl + 1))
      by (unfold heap_get; f_equal; lia).
    apply Hs2; lia.
Qed.

End HeapsortFacts.

(** *** The quicksort *)

Section QuicksortFacts.

Variable key : nat -> R.

Local Open Scope R_scope.

(** The sort of a part has an answer, and the answer is that part sorted,
    whatever the depth. *)
Lemma sort_range_spec (fuel : nat) (popped : bool) (cdepth : Z)
      (a : list nat) (pl pr : nat) :
  (pl <= pr < List.length a)%nat ->
  (pr - pl < fuel)%nat ->
  exists a',
    sort_range (less_key key) fuel popped cdepth a pl pr = Some a'
    /\ sorted_range key a a' pl pr.
Proof.
  revert popped cdepth a pl pr; induction fuel as [|fuel IH];
    intros popped cdepth a pl pr Hrange Hfuel; [lia|].
  cbn [sort_range].
  destruct (popped && (cdepth <? 0)%Z).
  { eexists; split; [reflexivity|]; now apply aheapsort_spec. }
  destruct (16 <? pr - pl)%nat eqn:Hlong.
  - apply Nat.ltb_lt in Hlong.
    assert (Hpart := partition_spec key a pl pr ltac:(lia) ltac:(lia)).
    destruct (partition (less_key key) a pl pr) as (a1, r).
    assert (Hl1 := partitioned_length _ _ _ _ _ _ Hpart).
    assert (Hr := partitioned_pivot _ _ _ _ _ _ Hpart).
    destruct (r - pl <? pr - r)%nat.
    + destruct (IH false (cdepth - 1)%Z a1 pl (r - 1)%nat)
        as (a2 & -> & H12); try lia.
      assert (Hl2 := sorted_length _ _ _ _ _ H12).
      destruct (IH true (cdepth - 1)%Z a2 (r + 1)%nat pr)
        as (a3 & -> & H23); try lia.
      eexists; split; [reflexivity|].
      apply (sorted_range_join key a a1 a3 pl pr r Hpart).
      apply (sorted_range_both key a1 a2 a3); auto; lia.
    + destruct (IH false (cdepth - 1)%Z a1 (r + 1)%nat pr)
        as (a2 & -> & H12); try lia.
      assert (Hl2 := sorted_length _ _ _ _ _ H12).
      destruct (IH true (cdepth - 1)%Z a2 pl (r - 1)%nat)
        as (a3 & -> & H23); try lia.
      eexists; split; [reflexivity|].
      apply (sorted_range_join key a a1 a3 pl pr r Hpart).
      apply both_sorted_sym.
      apply (sorted_range_both key a1 a2 a3); auto; lia.
  - eexists; split; [reflexivity|].
    unfold insertion_sort_range.
    destruct (insertion_sort_sorts key (part a pl pr)) as (Hperm & Hsorted).
    now apply sorted_range_replaced.
Qed.

(** [argsort] returns the positions rearranged into ascending order of
    their keys. *)
Lemma numpy_argsort_sorts (num : nat) :
  exists order,
    numpy_argsort (less_key key) num = Some order
    /\ Permutation (seq 0 num) order
    /\ StronglySorted (at_most key) order.
Proof.
  destruct num as [|n].
  { exists []; repeat split; constructor. }
  unfold numpy_argsort.
  destruct (sort_range_spec (S n) false (Z.of_nat (2 * Nat.log2 (S n)))
                            (seq 0 (S n)) 0 (S n - 1))
    as (order & Hrun & [Hlen Hperm _ Hkeys]).
  - rewrite length_seq; lia.
  - lia.
  - exists order; split; [exact Hrun|]; split; [exact Hperm|].
    apply (StronglySorted_nth _ 0%nat); intros i j Hij.
    rewrite Hlen, length_seq in Hij.
    apply Hkeys; lia.
Qed.

End QuicksortFacts.

(** ** The quicksort on small tables *)

Section InsertionFacts.

Context {A B : Type}.
Variable lessA : A -> A -> bool.
Variable lessB : B -> B -> bool.
Variable g : A -> B.
Variable P : A -> Prop.
Hypothesis less_agree :
  forall x y, P x -> P y -> lessA x y = lessB (g x) (g y).

Lemma insert_sorted_map (x : A) (l : list A) :
  P x -> Forall P l ->
  map g (insert_sorted lessA x l) = insert_sorted lessB (g x) (map g l)
  /\ Forall P (insert_sorted lessA x l).
Proof.
  intros Hx Hl; induction Hl as [|y l Hy Hl IH]; simpl.
  - split; [reflexivity | now repeat constructor].
  - rewrite <- (less_agree x y Hx Hy).
    destruct (lessA x y); simpl.
    + destruct IH as (-> & Hall); split; [reflexivity | now constructor].
    + split; [reflexivity | now repeat constructor].
Qed.

Lemma fold_insert_sorted_map (l acc : list A) :
  Forall P l -> Forall P acc ->
  map g (fold_left (fun prefix_rev x => insert_sorted lessA x prefix_rev)
                   l acc)
  = fold_left (fun prefix_rev x => insert_sorted lessB x prefix_rev)
              (map g l) (map g acc).
Proof.
  intros Hl; revert acc; induction Hl as [|x l Hx Hl IH]; intros acc Hacc.
  - reflexivity.
  - simpl; destruct (insert_sorted_map x acc Hx Hacc) as (Hmap & Hall).
    now rewrite IH, Hmap.
Qed.

End InsertionFacts.

Section SmallSortFacts.

Local Open Scope R_scope.

Lemma insert_sorted_rows (x : row) (l : list row) :
  insert_sorted less_row x l = insert_before_ties x l.
Proof.
  induction l as [|y l IH]; [reflexivity|].
  cbn [insert_sorted insert_before_ties]; rewrite IH.
  unfold less_row, Rltb; now destruct (Rlt_dec (Score x) (Score y)).
Qed.

Lemma fold_insert_sorted_rows (l acc : list row) :
  fold_left (fun prefix_rev x => insert_sorted less_row x prefix_rev) l acc
  = fold_left (fun prefix_rev x => insert_before_ties x prefix_rev) l acc.
Proof.
  revert acc; induction l as [|x l IH]; intros acc; cbn [fold_left];
    [reflexivity | now rewrite insert_sorted_rows, IH].
Qed.

(** On at most 17 keys [argsort] is the insertion sort. *)
Lemma numpy_argsort_small (less : nat -> nat -> bool) (num : nat) :
  (num <= 17)%nat ->
  numpy_argsort less num = Some (insertion_sort less (seq 0 num)).
Proof.
  intros Hnum; destruct num as [|n]; [reflexivity|].
  unfold numpy_argsort; cbn [sort_range andb].
  replace (16 <? S n - 1 - 0)%nat with false
    by (symmetry; apply Nat.ltb_ge; lia).
  unfold insertion_sort_range, part.
  replace (S (S n - 1) - 0)%nat with (List.length (seq 0 (S n)))
    by (rewrite length_seq; lia).
  replace (S (S n - 1)) with (List.length (seq 0 (S n)))
    by (rewrite length_seq; lia).
  cbn [firstn skipn app].
  now rewrite firstn_all, skipn_all, app_nil_r.
Qed.

Lemma take_reversed (rows : list row) (k : nat) :
  (k < List.length rows)%nat ->
  nth (nth k (rev (seq 0 (List.length rows))) 0%nat) rows (EmptyString, 0)
  = nth k (rev rows) (EmptyString, 0).
Proof.
  intros Hk.
  rewrite !rev_nth by (rewrite ?length_seq; assumption).
  rewrite length_seq, seq_nth by lia; reflexivity.
Qed.

(** On at most 17 rows the sort inserts each row in front of the rows it
    ties with. *)
Lemma pandas_sort_values_small (rows : list row) :
  (List.length rows <= 17)%nat ->
  pandas_sort_values rows = Some (@sort_values stable_sorter rows).
Proof.
  intros Hlen; unfold pandas_sort_values, nargsort_descending.
  rewrite length_map, numpy_argsort_small by assumption.
  unfold insertion_sort; cbn [option_map]; f_equal.
  rewrite <- map_rev, rev_involutive.
  unfold take; rewrite map_map.
  set (n := List.length rows) in *.
  set (pick := fun k => nth (nth k (rev (seq 0 n)) 0%nat) rows
                            (EmptyString, 0)).
  set (less := fun i j => Rltb (nth i (rev (map Score rows)) 0)
                               (nth j (rev (map Score rows)) 0)).
  assert (Hagree : forall i j, (i < n)%nat -> (j < n)%nat ->
                               less i j = less_row (pick i) (pick j)).
  { intros i j Hi Hj; unfold less, less_row, pick, n.
    rewrite !take_reversed by assumption.
    rewrite <- map_rev.
    now rewrite <- !(map_nth Score). }
  assert (Hseq : Forall (fun i => (i < n)%nat) (seq 0 n))
    by (apply Forall_forall; intros i Hi; apply in_seq in Hi; lia).
  rewrite (fold_insert_sorted_map less less_row pick _ Hagree
                                  (seq 0 n) [] Hseq (Forall_nil _)).
  assert (Hpick : map pick (seq 0 n) = rev rows).
  { apply (nth_ext _ _ (EmptyString, 0) (EmptyString, 0)).
    - now rewrite length_map, length_seq, length_rev.
    - rewrite length_map, length_seq; intros k Hk.
      rewrite (nth_indep _ _ (pick 0%nat))
        by (rewrite length_map, length_seq; exact Hk).
      rewrite map_nth, seq_nth by assumption.
      unfold pick, n; apply take_reversed; exact Hk. }
  rewrite Hpick, fold_insert_sorted_rows; simpl.
  rewrite <- (rev_involutive rows) at 2.
  now rewrite fold_left_rev_right.
Qed.

Lemma numpy_sorter_small (rows : list row) :
  (List.length rows <= 17)%nat ->
  @sort_values numpy_sorter rows = @sort_values stable_sorter rows.
Proof.
  intros Hlen; unfold numpy_sorter at 1; cbn [sort_values].
  now rewrite pandas_sort_values_small.
Qed.

(** The insertion sort keeps rows of equal score in their order. *)
Lemma insert_before_ties_filter (s : R) (x : row) (l : list row) :
  filter (has_score s) (insert_before_ties x l)
  = filter (has_score s) (x :: l).
Proof.
  induction l as [|y l IH]; [reflexivity|].
  cbn [insert_before_ties].
  destruct (Rlt_dec (Score x) (Score y)) as [Hlt|Hge]; [|reflexivity].
  cbn [filter] in *; rewrite IH.
  unfold has_score.
  destruct (Req_dec_T (Score x) s) as [Hx|Hx];
    destruct (Req_dec_T (Score y) s) as [Hy|Hy]; try reflexivity.
  exfalso; lra.
Qed.

Lemma stable_sorter_ties (rows : list row) :
  ties_in_upload_order rows (@sort_values stable_sorter rows).
Proof.
  intros s; simpl; induction rows as [|x rows IH]; [reflexivity|].
  cbn [fold_right]; rewrite insert_before_ties_filter.
  cbn [filter]; now rewrite IH.
Qed.

(** *** Eighteen equal scores *)

Lemma nth_all_default {A : Type} (d : A) (l : list A) (i : nat) :
  Forall (eq d) l -> nth i l d = d.
Proof.
  intros Hall; revert i; induction Hall as [|x l <- _ IH]; intros [|i];
    simpl; auto.
Qed.

Lemma Rltb_irrefl (x : R) : Rltb x x = false.
Proof. unfold Rltb; destruct (Rlt_dec x x); [lra | reflexivity]. Qed.

(** [argsort] of eighteen equal keys: one partition around position 8,
    which exchanges the positions 1 .. 7 with 15 .. 9, then two insertion
    sorts that move nothing. *)
Lemma numpy_argsort_18_equal :
  numpy_argsort (fun _ _ => false) 18
  = Some [0; 15; 14; 13; 12; 11; 10; 9; 8; 7; 6; 5; 4; 3; 2; 1; 16; 17]%nat.
Proof. vm_compute; reflexivity. Qed.

Lemma pandas_sort_values_18_equal (names : list string) :
  List.length names = 18%nat ->
  pandas_sort_values (map (fun n => (n, 0)) names)
  = Some (map (fun i => (nth i names EmptyString, 0))
              [0; 1; 16; 15; 14; 13; 12; 11; 10; 9; 8; 7; 6; 5; 4; 3; 2;
               17]%nat).
Proof.
  intros Hlen.
  unfold pandas_sort_values, nargsort_descending.
  rewrite !length_map, Hlen.
  replace (fun i j : nat => Rltb _ _) with (fun _ _ : nat => false).
  - rewrite numpy_argsort_18_equal.
    do 18 (destruct names as [|? names]; [discriminate|]).
    destruct names; [|discriminate].
    reflexivity.
  - extensionality i; extensionality j.
    assert (Hzero : Forall (eq 0)
                      (rev (map Score (map (fun n : string => (n, 0))
                                           names)))).
    { apply Forall_rev, Forall_map, Forall_map, Forall_forall.
      reflexivity. }
    rewrite !(nth_all_default 0 _ _ Hzero).
    symmetry; apply Rltb_irrefl.
Qed.

Lemma filter_all {A : Type} (f : A -> bool) (l : list A) :
  Forall (fun x => f x = true) l -> filter f l = l.
Proof.
  induction 1 as [|x l Hx _ IH]; simpl; [reflexivity|].
  now rewrite Hx, IH.
Qed.

Lemma has_score_refl (resume : string) (s : R) :
  has_score s (resume, s) = true.
Proof.
  unfold has_score; cbn [Score snd].
  destruct (Req_dec_T s s); [reflexivity | congruence].
Qed.

Lemma combine_map_const {A B : Type} (b : B) (l : list A) :
  combine l (map (fun _ => b) l) = map (fun a => (a, b)) l.
Proof. induction l as [|a l IH]; simpl; [reflexivity | now rewrite IH]. Qed.

End SmallSortFacts.

(** ** The sort of the table *)

Lemma StronglySorted_impl {A : Type} (R R' : A -> A -> Prop) (l : list A) :
  (forall x y, R x y -> R' x y) ->
  StronglySorted R l -> StronglySorted R' l.
Proof.
  intros Himpl; induction 1 as [|x l _ IH Hx]; constructor; [assumption|].
  eapply Forall_impl; [|exact Hx]; auto.
Qed.

Section TableSortFacts.

Local Open Scope R_scope.

(** [sort_values] always has an answer: the rows, rearranged into
    descending score order. *)
Lemma pandas_sort_values_sorts (rows : list row) :
  exists sorted,
    pandas_sort_values rows = Some sorted
    /\ Permutation rows sorted
    /\ StronglySorted descending sorted.
Proof.
  unfold pandas_sort_values, nargsort_descending.
  rewrite length_map.
  set (key := fun i => nth i (rev (map Score rows)) 0).
  destruct (numpy_argsort_sorts key (List.length rows))
    as (order & Hrun & Hperm & Hsorted).
  change (numpy_argsort
            (fun i j => Rltb (nth i (rev (map Score rows)) 0)
                             (nth j (rev (map Score rows)) 0))
            (List.length rows))
    with (numpy_argsort (less_key key) (List.length rows)).
  rewrite Hrun; cbn [option_map].
  eexists; split; [reflexivity|].
  unfold take; rewrite map_rev, map_map.
  assert (Hpick : map (fun k => nth (nth k (rev (seq 0 (List.length rows)))
                                         0%nat)
                                    rows (EmptyString, 0)) order
                  = map (fun k => nth k (rev rows) (EmptyString, 0)) order).
  { apply map_ext_in; intros k Hk; apply take_reversed.
    apply (Permutation_in _ (Permutation_sym Hperm)), in_seq in Hk; lia. }
  rewrite Hpick; split.
  - rewrite <- Permutation_rev, <- Hperm.
    rewrite <- (length_rev rows).
    change (map (fun k => nth k (rev rows) (EmptyString, 0))
                (seq 0 (List.length (rev rows))))
      with (permute (EmptyString, 0) (seq 0 (List.length (rev rows)))
                    (rev rows)).
    rewrite permute_identity; apply Permutation_rev.
  - apply (StronglySorted_rev (fun a b : row => descending b a)).
    apply StronglySorted_map.
    apply (StronglySorted_impl (at_most key)); [|exact Hsorted].
    intros i j Hij; unfold at_most, key in Hij; unfold descending.
    rewrite <- !map_rev in Hij.
    change 0 with (Score (EmptyString, 0)) in Hij.
    rewrite !map_nth in Hij; lra.
Qed.

Lemma numpy_sorter_contract : SortContract numpy_sorter.
Proof.
  split; intros rows; cbn [sort_values numpy_sorter];
    destruct (pandas_sort_values_sorts rows) as (sorted & -> & Hperm & Hs);
    assumption.
Qed.

End TableSortFacts.

(** ** Claims about the displayed table and the vectorizer failure *)

Section DisplayClaims.

Context {pdflib : PdfLibrary} {analyzer : Analyzer} {sorter : Sorter}.


End DisplayClaims.

Section TableClaims.

Context {pdflib : PdfLibrary} {analyzer : Analyzer}.

(** C3, as the code has it.  With the sort that pandas runs: whenever a
    table is shown, the ranker returned one score per uploaded file; the
    rows of the table are the (name, score) pairs in upload order,
    rearranged; they are in descending score order; they are numbered
    from 1; and the same rows are exported.  Nothing is said about the
    relative order of rows of equal score. *)
Theorem ranking_table_sorted (job_description : string) (files : list File)
        (results : list (nat * row)) :
  In (StDataframe results)
     (events (@main pdflib analyzer numpy_sorter job_description files)) ->
  exists scores,
    rank_resumes job_description (map text_of files) = Ok scores
    /\ List.length scores = List.length files
    /\ Permutation (combine (map name files) scores) (map snd results)
    /\ StronglySorted descending (map snd results)
    /\ map fst results = seq 1 (List.length files)
    /\ In (StDownloadButton (map snd results) "resume_ranking.csv")
          (events (@main pdflib analyzer numpy_sorter
                         job_description files)).
Proof.
  intros Hin.
  destruct (@main_shows_table pdflib analyzer numpy_sorter _ _ _ Hin)
    as (Hall & Hne & Hv & -> & Hcsv).
  set (resumes := map text_of files) in *.
  set (scores := map (resume_score (job_description :: resumes)
                                   job_description) resumes).
  assert (Hlen : List.length (combine (map name files) scores)
                 = List.length files).
  { unfold scores, resumes.
    rewrite length_combine, !length_map; apply Nat.min_id. }
  exists scores; unfold results_table, reset_index in *.
  fold scores in Hcsv |- *.
  set (rows := combine (map name files) scores) in *.
  destruct (map_snd_combine_seq 1 (@sort_values numpy_sorter rows))
    as (Hsnd & Hfst).
  unfold to_csv in Hcsv; rewrite Hsnd in Hcsv |- *; rewrite Hfst.
  assert (Hsorted : List.length (@sort_values numpy_sorter rows)
                    = List.length files).
  { rewrite <- Hlen; symmetry.
    apply Permutation_length,
      (@sort_values_permutation _ numpy_sorter_contract). }
  rewrite Hsorted.
  repeat split.
  - apply rank_resumes_scores; [|assumption].
    unfold resumes; destruct files; [congruence | discriminate].
  - unfold scores, resumes; now rewrite !length_map.
  - apply (@sort_values_permutation _ numpy_sorter_contract).
  - apply (@sort_values_descending _ numpy_sorter_contract).
  - exact Hcsv.
Qed.

End TableClaims.

(** C4, on the code.  A job description and a resume text that hold no
    token of two or more word characters: the vectorizer raises, nothing
    catches the exception, and it leaves [main] after the ranker call was
    logged; no [st.error] or [st.warning] is among the events. *)
Theorem empty_vocabulary_escapes :
  run stable_sorter "C" [pdf "cv.pdf" "C"]
  = ([PdfReaderCall (pdf "cv.pdf" "C"); RankCall "C" ["C"]],
     Raise (ValueError msg_empty_vocabulary)).
Proof. reflexivity. Qed.

(** ** Concrete runs *)

Section ConcreteRuns.

Local Open Scope R_scope.

(** C1 on three uploads, the second of which does not parse. *)
Lemma batch_stops_at_first_failure_witness :
  reader_calls
    (events (@process uploads default_analyzer stable_sorter developer
                      [cv_a; cv_b; cv_c]))
  = [cv_a; cv_b].
Proof.
  exact (proj1 (@batch_stops_at_first_failure
                  uploads default_analyzer stable_sorter developer
                  [cv_a] cv_b [cv_c]
                  ltac:(repeat constructor) eq_refl)).
Defined.

(** C6 on a batch whose second upload has no text layer. *)
Lemma empty_text_rejects_batch_witness :
  ranking_events (events (run stable_sorter developer [cv_a; cv_scan])) = [].
Proof.
  exact (proj1 (@empty_text_rejects_batch
                  uploads default_analyzer stable_sorter developer
                  [cv_a; cv_scan] cv_scan
                  (or_intror (or_introl eq_refl))
                  (or_intror eq_refl))).
Defined.

(** C5 with the job description missing. *)
Lemma missing_input_guard_witness :
  events (run stable_sorter "" [cv_a])
  = [StWarning msg_need_job_description].
Proof.
  destruct (@missing_input_guard
              uploads default_analyzer stable_sorter "" [cv_a]
              (or_introl eq_refl))
    as (_ & _ & _ & H & _).
  apply H; [reflexivity | discriminate].
Defined.

(** C5 as stated fails when both inputs are missing: no warning is
    logged. *)
Lemma missing_both_no_warning :
  ~ (forall (job_description : string) (uploaded_files : list upload),
        job_description = EmptyString \/ uploaded_files = [] ->
        ranking_events
          (events (run stable_sorter job_description uploaded_files)) = []
        /\ exists msg,
            In (StWarning msg)
               (events (run stable_sorter job_description uploaded_files))).
Proof.
  intros H.
  destruct (H EmptyString [] (or_introl eq_refl)) as (_ & msg & Hin).
  exact Hin.
Qed.



(** C2 on two resumes. *)
Lemma rank_resumes_one_score_per_resume_witness :
  exists scores,
    @rank_resumes default_analyzer developer
                  ["python engineer"; "graphic designer"]%string
    = Ok scores
    /\ List.length scores = 2%nat.
Proof.
  destruct (@rank_resumes_one_score_per_resume
              default_analyzer developer
              ["python engineer"; "graphic designer"]%string)
    as (scores & Hok & Hlen & _).
  - discriminate.
  - vm_compute; discriminate.
  - exists scores; split; assumption.
Defined.

(** C2 as stated fails on non-empty texts that hold no token. *)
Lemma rank_resumes_raises_without_tokens :
  ~ (forall (job_description : string) (resumes : list string),
        job_description <> EmptyString ->
        resumes <> [] ->
        exists scores,
          @rank_resumes default_analyzer job_description resumes
          = Ok scores
          /\ List.length scores = List.length resumes).
Proof.
  intros H.
  destruct (H "a"%string ["b"%string]) as (scores & Hok & _);
    try discriminate.
Qed.



(** C3 on two uploads. *)
Lemma ranking_table_sorted_witness :
  exists results,
    In (StDataframe results)
       (events (run numpy_sorter developer [cv_a; cv_c]))
    /\ StronglySorted descending (map snd results)
    /\ map fst results = [1; 2]%nat.
Proof.
  assert (Hrun := @main_success
                    uploads default_analyzer numpy_sorter developer
                    [cv_a; cv_c] eq_refl
                    ltac:(discriminate)
                    ltac:(repeat constructor)
                    ltac:(vm_compute; discriminate)).
  eexists; split.
  - unfold run; rewrite Hrun.
    apply in_or_app; right; simpl; right; right; left; reflexivity.
  - match goal with
    | |- StronglySorted _ (map snd ?r) /\ _ =>
        assert (Hin : In (StDataframe r)
                         (events (@main uploads default_analyzer
                                        numpy_sorter developer
                                        [cv_a; cv_c])))
          by (rewrite Hrun; apply in_or_app; right; simpl; auto)
    end.
    destruct (@ranking_table_sorted
                uploads default_analyzer developer [cv_a; cv_c] _ Hin)
      as (scores & _ & _ & _ & Hsorted & Hindex & _).
    split; [exact Hsorted | exact Hindex].
Defined.

(** *** Eighteen uploads of equal score *)

Lemma designers_names : map (@name uploads) designers = designer_names.
Proof. reflexivity. Qed.

Lemma designers_texts :
  map (@text_of uploads) designers
  = map (fun _ => "graphic designer"%string) designer_names.
Proof. reflexivity. Qed.

Lemma designer_score (documents : list string) :
  @resume_score default_analyzer documents developer "graphic designer" = 0.
Proof.
  apply resume_score_no_shared_term.
  intros t Ht Hin; vm_compute in Ht, Hin.
  destruct Ht as [<-|[<-|[]]];
    destruct Hin as [Hin|[Hin|[]]]; discriminate.
Qed.

(** The table of the eighteen designers, as the quicksort leaves it: the
    third row is the seventeenth upload. *)
Lemma designers_table :
  @results_table default_analyzer numpy_sorter developer
                 (map (@text_of uploads) designers)
                 (map (@name uploads) designers)
  = reset_index
      (map (fun file_name => (file_name, 0))
           ["cv01.pdf"; "cv02.pdf"; "cv17.pdf"; "cv16.pdf"; "cv15.pdf";
            "cv14.pdf"; "cv13.pdf"; "cv12.pdf"; "cv11.pdf"; "cv10.pdf";
            "cv09.pdf"; "cv08.pdf"; "cv07.pdf"; "cv06.pdf"; "cv05.pdf";
            "cv04.pdf"; "cv03.pdf"; "cv18.pdf"]%string).
Proof.
  unfold results_table.
  rewrite designers_names, designers_texts, map_map.
  rewrite (map_ext _ (fun _ => 0) (fun _ => designer_score _)).
  rewrite combine_map_const.
  unfold numpy_sorter at 1; cbn [sort_values].
  now rewrite pandas_sort_values_18_equal.
Qed.

(** C3 as stated fails on its tie rule: eighteen uploads of equal score
    are not shown in upload order. *)
Lemma ties_not_in_upload_order :
  ~ (forall (job_description : string) (files : list upload)
            (results : list (nat * row)) (scores : vector),
        In (StDataframe results)
           (events (run numpy_sorter job_description files)) ->
        @rank_resumes default_analyzer job_description
                      (map (@text_of uploads) files) = Ok scores ->
        StronglySorted descending (map snd results)
        /\ ties_in_upload_order
             (combine (map upload_name files) scores)
             (map snd results)).
Proof.
  intros H.
  assert (Hrun := @main_success
                    uploads default_analyzer numpy_sorter developer
                    designers eq_refl
                    ltac:(discriminate)
                    ltac:(repeat constructor)
                    ltac:(vm_compute; discriminate)).
  assert (Hok := @rank_resumes_scores
                   default_analyzer developer
                   (map (@text_of uploads) designers)
                   ltac:(discriminate) ltac:(vm_compute; discriminate)).
  cbv zeta in Hrun; rewrite designers_table in Hrun.
  rewrite designers_texts, map_map in Hok.
  rewrite (map_ext _ (fun _ => 0) (fun _ => designer_score _)) in Hok.
  rewrite <- designers_texts in Hok.
  match type of Hrun with
  | _ = (_ ++ [_; _; StDataframe ?r; _], _) => set (results := r) in *
  end.
  assert (Hin : In (StDataframe results)
                   (events (run numpy_sorter developer designers))).
  { unfold run; rewrite Hrun.
    apply in_or_app; right; simpl; right; right; left; reflexivity. }
  destruct (H developer designers results _ Hin Hok) as (_ & Hties).
  specialize (Hties 0).
  change (map upload_name designers) with designer_names in Hties.
  rewrite combine_map_const in Hties.
  unfold results, reset_index in Hties.
  rewrite (proj1 (map_snd_combine_seq 1 _)) in Hties.
  rewrite !filter_all in Hties
    by (apply Forall_map, Forall_forall; intros; apply has_score_refl).
  apply (f_equal (fun rows => fst (nth 2 rows (EmptyString, 0))))
    in Hties.
  discriminate Hties.
Qed.

End ConcreteRuns.


(** * Further properties of the script *)

(** ** The shape of a run *)

Lemma firstn_length_app {A : Type} (l l' : list A) :
  firstn (List.length l) (l ++ l') = l.
Proof. induction l as [|a l IH]; simpl; [reflexivity | now rewrite IH]. Qed.

Section RunFacts.

Context {pdflib : PdfLibrary} {analyzer : Analyzer} {sorter : Sorter}.

Lemma extract_some (file : File) (s : string) :
  extracted file = Some s ->
  extract_text_from_pdf file = ([PdfReaderCall file], Ok (Some s)).
Proof.
  unfold extracted.
  destruct (extract_text_from_pdf_cases file)
    as [(pages & texts & _ & _ & ->)|(e & _ & ->)]; simpl.
  - now intros [= ->].
  - discriminate.
Qed.

Lemma extract_none (file : File) :
  extracted file = None ->
  exists e,
    (PdfReader file = Raise e
     \/ exists pages, PdfReader file = Ok pages /\ first_failing_page pages e)
    /\ extract_text_from_pdf file
       = ([PdfReaderCall file; StError (msg_reading_pdf ++ exn_str e)],
          Ok None).
Proof.
  unfold extracted.
  destruct (extract_text_from_pdf_cases file)
    as [(pages & texts & _ & _ & Heq)|(e & He & Heq)]; rewrite Heq; simpl.
  - discriminate.
  - intros _; exists e; split; [exact He | reflexivity].
Qed.

(** Usable files log their reader call and nothing else. *)
Lemma extraction_log_usable (files : list File) :
  Forall usable files -> extraction_log files = map PdfReaderCall files.
Proof.
  induction 1 as [|file rest Hfile _ IH]; [reflexivity|].
  destruct (usable_text file Hfile) as (c & s & Hs & _).
  unfold extraction_log in *; simpl.
  now rewrite (extract_some file _ Hs), IH.
Qed.

Lemma usable_or_first_unusable (files : list File) :
  Forall usable files
  \/ exists before file after,
      files = before ++ file :: after
      /\ Forall usable before /\ unusable file.
Proof.
  induction files as [|g rest [IH|(before & f & after & -> & Hb & Hf)]].
  - left; constructor.
  - destruct (usable_dec g) as [Hg|Hg].
    + left; now constructor.
    + right; exists [], g, rest; repeat split; auto.
  - right; destruct (usable_dec g) as [Hg|Hg].
    + exists (g :: before), f, after; repeat split; auto.
    + exists [], g, (before ++ f :: after); repeat split; auto.
Qed.

(** The three shapes of a run of [main]: stopped by the guard, stopped by
    an unusable file, or through to the ranker. *)
Lemma main_cases (job_description : string) (files : list File) :
  ((str_truthy job_description = false \/ files = [])
   /\ exists log,
       main job_description files = (log, Ok tt)
       /\ (log = [] \/ exists msg, log = [StWarning msg]))
  \/ (str_truthy job_description = true
      /\ exists before file after,
          files = before ++ file :: after
          /\ Forall usable before /\ unusable file
          /\ main job_description files
             = (extraction_log (before ++ [file])
                ++ [StError msg_batch_failed], Ok tt))
  \/ (str_truthy job_description = true
      /\ files <> [] /\ Forall usable files
      /\ main job_description files
         = (extraction_log files
            ++ events (rank_and_show job_description (map text_of files)
                                     (map name files)),
            outcome (rank_and_show job_description (map text_of files)
                                   (map name files)))).
Proof.
  destruct (str_truthy job_description) eqn:Hjd.
  - destruct files as [|f rest] eqn:Hfiles.
    + left; split; [now right|].
      rewrite main_guarded by now right.
      destruct job_description; [discriminate|].
      eexists; split; [reflexivity | right; eexists; reflexivity].
    + rewrite <- Hfiles.
      assert (Hne : files <> []) by (subst; discriminate).
      assert (Hlt : list_truthy files = true) by (subst; reflexivity).
      clear Hfiles.
      destruct (usable_or_first_unusable files)
        as [Hall|(before & g & after & -> & Hb & Hg)].
      * right; right; repeat split; auto.
        rewrite main_processes by assumption.
        now apply process_usable.
      * right; left; split; [reflexivity|].
        exists before, g, after; repeat split; auto.
        rewrite main_processes by assumption.
        now apply process_unusable.
  - left; split; [now left|].
    rewrite main_guarded by now left.
    destruct files, job_description; try discriminate;
      eexists; (split; [reflexivity|]); auto;
      right; eexists; reflexivity.
Qed.

End RunFacts.

(** ** Extraction of a batch *)

Section RunClaims.

Context {pdflib : PdfLibrary} {analyzer : Analyzer} {sorter : Sorter}.

Lemma rank_and_show_events (job_description : string)
      (resumes resume_names : list string) :
  events (rank_and_show job_description resumes resume_names)
  = [RankCall job_description resumes]
  \/ exists results,
      events (rank_and_show job_description resumes resume_names)
      = [RankCall job_description resumes;
         StMarkdown msg_ranking_results;
         StDataframe results;
         StDownloadButton (to_csv results) "resume_ranking.csv"].
Proof.
  unfold rank_and_show, bind, emit, lift.
  destruct (rank_resumes job_description resumes) as [scores|e];
    [destruct (DataFrame resume_names scores)|]; simpl; eauto.
Qed.

Lemma extract_pages_textless (pages : list Page) (text : string) :
  Forall (fun p => extract_text p = Ok EmptyString) pages ->
  extract_pages pages text = Ok text.
Proof.
  induction 1 as [|page rest Hpage _ IH]; simpl; [reflexivity|].
  now rewrite Hpage; simpl; rewrite append_empty_r.
Qed.

Lemma extract_pages_first_failing (pages : list Page) (e : exn)
      (text : string) :
  first_failing_page pages e -> extract_pages pages text = Raise e.
Proof.
  intros (before & page & after & -> & Hb & Hp); revert text.
  induction Hb as [|q before (t & Hq) _ IH]; intros text; simpl.
  - now rewrite Hp.
  - rewrite Hq; simpl; apply IH.
Qed.

(** X1.  Whenever [main] invokes the ranker, it does so with the job
    description it was given, which is not empty, and with the texts of
    all uploaded files, in upload order; there is at least one text, and
    none of them is empty. *)
Theorem ranker_called_on_checked_input (job_description : string)
        (files : list File) (jd : string) (resumes : list string) :
  In (RankCall jd resumes) (events (main job_description files)) ->
  jd = job_description
  /\ job_description <> EmptyString
  /\ Forall usable files
  /\ resumes = map text_of files
  /\ resumes <> []
  /\ Forall (fun text => text <> EmptyString) resumes.
Proof.
  intros Hin.
  assert (Hr : In (RankCall jd resumes)
                  (ranking_events (events (main job_description files))))
    by (apply filter_In; split; [assumption | reflexivity]).
  clear Hin.
  destruct (main_cases job_description files)
    as [(_ & log & Heq & Hlog)
       |[(_ & before & g & after & -> & Hb & Hg & Heq)
        |(Hjd & Hne & Hall & Heq)]];
    rewrite Heq in Hr; simpl in Hr.
  - destruct Hlog as [-> | (msg & ->)]; destruct Hr.
  - rewrite ranking_events_app in Hr.
    destruct (extraction_log_calls (before ++ [g])) as (_ & Hnone & _).
    rewrite Hnone in Hr; destruct Hr.
  - rewrite ranking_events_app in Hr.
    destruct (extraction_log_calls files) as (_ & Hnone & _).
    rewrite Hnone in Hr; simpl in Hr; clear Hnone.
    apply filter_In in Hr; destruct Hr as (Hr & _).
    assert (Hcall : @RankCall File jd resumes
                    = RankCall job_description (map text_of files)).
    { destruct (rank_and_show_events job_description (map text_of files)
                                     (map name files))
        as [Hev|(results & Hev)]; rewrite Hev in Hr; simpl in Hr.
      - destruct Hr as [Hr|[]]; now symmetry.
      - destruct Hr as [Hr|[Hr|[Hr|[Hr|[]]]]];
          try discriminate; now symmetry. }
    injection Hcall as -> ->.
    repeat split; auto.
    + intros ->; discriminate.
    + destruct files; [congruence | discriminate].
    + apply Forall_map; eapply Forall_impl; [|exact Hall].
      intros f Hf; destruct (usable_text f Hf) as (c & s & _ & ->).
      discriminate.
Qed.

(** X2.  The only exception that can leave [main] is the [ValueError] of
    the vectorizer on an empty vocabulary; it leaves [main] exactly when a
    job description is present, files were uploaded, every file is usable,
    and the job description and the texts together hold no term. *)
Theorem main_raises_only_on_empty_vocabulary (job_description : string)
        (files : list File) :
  (forall e,
      outcome (main job_description files) = Raise e ->
      e = ValueError msg_empty_vocabulary)
  /\ ((exists e, outcome (main job_description files) = Raise e)
      <-> (str_truthy job_description = true
           /\ files <> []
           /\ Forall usable files
           /\ vocabulary (job_description :: map text_of files) = [])).
Proof.
  assert (Hmain : forall e,
             outcome (main job_description files) = Raise e ->
             e = ValueError msg_empty_vocabulary
             /\ str_truthy job_description = true
             /\ files <> []
             /\ Forall usable files
             /\ vocabulary (job_description :: map text_of files) = []).
  { intros e He.
    destruct (main_cases job_description files)
      as [(_ & log & Heq & _)
         |[(_ & before & g & after & _ & _ & _ & Heq)
          |(Hjd & Hne & Hall & Heq)]];
      rewrite Heq in He; simpl in He; try discriminate.
    rewrite rank_and_show_cases in He by now rewrite !length_map.
    destruct (vocabulary (job_description :: map text_of files)).
    - injection He as <-; repeat split; auto.
    - destruct files as [|f rest]; [congruence|].
      simpl in He; discriminate. }
  split; [intros e He; now apply Hmain|].
  split.
  - intros (e & He); now apply Hmain in He.
  - intros (Hjd & Hne & Hall & Hv).
    rewrite main_empty_vocabulary by assumption.
    eexists; reflexivity.
Qed.

(** X3.  The loop always ends with [resumes] and [resume_names] aligned:
    they are the texts and the names of the first [k] files, all usable;
    [valid_files] is true exactly when these are all the files, and
    otherwise file number [k] is the unusable one the loop stopped at. *)
Theorem extraction_loop_aligned (files : list File) :
  exists (valid_files : bool) (k : nat),
    outcome (extraction_loop files [] [])
    = Ok (valid_files,
          (map text_of (firstn k files), map name (firstn k files)))
    /\ Forall usable (firstn k files)
    /\ (valid_files = true <-> k = List.length files)
    /\ (valid_files = false ->
        exists file, nth_error files k = Some file /\ unusable file).
Proof.
  destruct (usable_or_first_unusable files)
    as [Hall|(before & g & after & -> & Hb & Hg)].
  - exists true, (List.length files).
    rewrite firstn_all, extraction_loop_usable by assumption.
    repeat split; auto; discriminate.
  - exists false, (List.length before).
    rewrite firstn_length_app, extraction_loop_unusable by assumption.
    repeat split; auto; try discriminate.
    + intros Hk; rewrite length_app in Hk; simpl in Hk; lia.
    + intros _; exists g; split; [|assumption].
      rewrite nth_error_app2, Nat.sub_diag by lia; reflexivity.
Qed.

(** X4.  A document that parses but whose pages all yield the empty text
    (or that has no page) is handled like a failure, without a cause: the
    run on a batch whose earlier files are usable logs the reader calls up
    to that document and then only the batch error. *)
Theorem textless_pdf_rejected_without_cause (job_description : string)
        (before : list File) (file : File) (after : list File)
        (pages : list Page) :
  str_truthy job_description = true ->
  Forall usable before ->
  PdfReader file = Ok pages ->
  Forall (fun p => extract_text p = Ok EmptyString) pages ->
  main job_description (before ++ file :: after)
  = (map PdfReaderCall (before ++ [file]) ++ [StError msg_batch_failed],
     Ok tt).
Proof.
  intros Hjd Hb Hread Hpages.
  assert (Hrun : extract_text_from_pdf file
                 = ([PdfReaderCall file], Ok (Some EmptyString))).
  { unfold extract_text_from_pdf, try_except, bind, emit, lift, ret.
    rewrite Hread; simpl.
    now rewrite (extract_pages_textless pages EmptyString Hpages). }
  assert (Hfile : unusable file)
    by (unfold unusable, extracted; now rewrite Hrun).
  rewrite main_processes by (try assumption; now destruct before).
  rewrite process_unusable by assumption.
  rewrite extraction_log_app, (extraction_log_usable before Hb), map_app.
  unfold extraction_log; simpl; now rewrite Hrun.
Qed.

(** X5.  A document whose parsing, or whose first failing page, raises [e]
    is reported twice: the run on a batch whose earlier files are usable
    logs the reader calls up to that document, then the error that names
    the cause, then the batch error. *)
Theorem failing_pdf_reports_cause (job_description : string)
        (before : list File) (file : File) (after : list File) (e : exn) :
  str_truthy job_description = true ->
  Forall usable before ->
  (PdfReader file = Raise e
   \/ exists pages, PdfReader file = Ok pages /\ first_failing_page pages e) ->
  main job_description (before ++ file :: after)
  = (map PdfReaderCall (before ++ [file])
     ++ [StError (msg_reading_pdf ++ exn_str e); StError msg_batch_failed],
     Ok tt).
Proof.
  intros Hjd Hb Hfail.
  assert (Hrun : extract_text_from_pdf file
                 = ([PdfReaderCall file;
                     StError (msg_reading_pdf ++ exn_str e)], Ok None)).
  { unfold extract_text_from_pdf, try_except, bind, emit, lift, ret.
    destruct Hfail as [Hread|(pages & Hread & Hpage)]; rewrite Hread; simpl.
    - reflexivity.
    - now rewrite (extract_pages_first_failing pages e EmptyString Hpage). }
  assert (Hfile : unusable file)
    by (unfold unusable, extracted; now rewrite Hrun).
  rewrite main_processes by (try assumption; now destruct before).
  rewrite process_unusable by assumption.
  rewrite extraction_log_app, (extraction_log_usable before Hb), map_app.
  assert (Hone : extraction_log [file]
                 = events (extract_text_from_pdf file))
    by (unfold extraction_log; simpl; apply app_nil_r).
  rewrite Hone, Hrun; unfold events; cbn [fst].
  rewrite <- !app_assoc; reflexivity.
Qed.

End RunClaims.

(** ** More on rows and normalisation *)

Section NormalizeFacts.

Local Open Scope R_scope.

Lemma map_div_1 (v : vector) : map (fun a => a / 1) v = v.
Proof.
  rewrite <- (map_id v) at 2; apply map_ext; intros a; field.
Qed.

Lemma dot_comm (x y : vector) : dot x y = dot y x.
Proof.
  revert y; induction x as [|a x IH]; intros [|b y];
    try reflexivity.
  rewrite !dot_cons, IH; ring.
Qed.

Lemma normalize_zero (v : vector) : dot v v = 0 -> normalize v = v.
Proof.
  intros Hz; unfold normalize, l2_norm; rewrite Hz, sqrt_0.
  destruct (Req_dec_T 0 0) as [_|Hn]; [apply map_div_1 | now destruct Hn].
Qed.

Lemma dot_normalize_unit (v : vector) :
  dot v v <> 0 -> dot (normalize v) (normalize v) = 1.
Proof.
  intros Hnz.
  pose proof (scale_of_pos v) as Hpos.
  rewrite normalize_scaling, dot_scaled by lra.
  pose proof (dot_self_nonneg v) as Hvv.
  unfold scale_of, l2_norm in *.
  destruct (Req_dec_T (sqrt (dot v v)) 0) as [Hz|Hn].
  - now apply sqrt_eq_0 in Hz.
  - rewrite (sqrt_sqrt _ Hvv); field; assumption.
Qed.

(** Normalising a normalised row changes nothing. *)
Lemma normalize_idempotent (v : vector) :
  normalize (normalize v) = normalize v.
Proof.
  destruct (Req_dec_T (dot v v) 0) as [Hz|Hnz].
  - now rewrite (normalize_zero v Hz), (normalize_zero v Hz).
  - unfold normalize at 1; unfold l2_norm.
    rewrite (dot_normalize_unit v Hnz), sqrt_1.
    destruct (Req_dec_T 1 0) as [H10|_]; [lra | apply map_div_1].
Qed.

Lemma cosine_normalized (x y : vector) :
  cosine (normalize x) (normalize y) = dot (normalize x) (normalize y).
Proof. unfold cosine; now rewrite !normalize_idempotent. Qed.

Lemma sum_nonneg (v : vector) : Forall (Rle 0) v -> 0 <= sum v.
Proof.
  induction 1 as [|a v Ha _ IH]; simpl; [apply Rle_refl | lra].
Qed.

Lemma sum_pos (v : vector) (a : R) :
  Forall (Rle 0) v -> In a v -> 0 < a -> 0 < sum v.
Proof.
  induction 1 as [|b v Hb Hv IH]; intros Hin Ha; [destruct Hin|].
  pose proof (sum_nonneg v Hv).
  destruct Hin as [->|Hin]; simpl; [lra|].
  specialize (IH Hin Ha); lra.
Qed.

Lemma dot_self_pos (v : vector) (a : R) : In a v -> 0 < a -> 0 < dot v v.
Proof.
  induction v as [|b v IH]; intros Hin Ha; [destruct Hin|].
  rewrite dot_cons; pose proof (dot_self_nonneg v).
  destruct Hin as [->|Hin]; [nra|].
  specialize (IH Hin Ha); nra.
Qed.

Lemma map_snd_combine_eq {A B : Type} (l : list A) (l' : list B) :
  List.length l = List.length l' -> map snd (combine l l') = l'.
Proof.
  revert l'; induction l as [|a l IH]; intros [|b l'] Hlen;
    try discriminate; [reflexivity|].
  simpl; rewrite IH; [reflexivity | now injection Hlen].
Qed.

End NormalizeFacts.

(** ** More on the ranker *)

Section RankerExtras.

Context {analyzer : Analyzer}.

Local Open Scope R_scope.

Lemma vocabulary_In (documents : list string) (t : string) :
  In t (vocabulary documents)
  <-> exists doc, In doc documents /\ In t (analyze doc).
Proof.
  unfold vocabulary.
  rewrite <- in_flat_map,
    <- (nodup_In string_dec (flat_map analyze documents)).
  split; apply Permutation_in;
    [symmetry|]; apply StringSort.Permuted_sort.
Qed.

Lemma vocabulary_nil (documents : list string) :
  vocabulary documents = []
  <-> Forall (fun doc => analyze doc = []) documents.
Proof.
  split.
  - intros Hv; apply Forall_forall; intros doc Hdoc.
    destruct (analyze doc) as [|t ts] eqn:Ha; [reflexivity|exfalso].
    assert (Hin : In t (vocabulary documents)).
    { apply vocabulary_In; exists doc; split; [assumption|].
      rewrite Ha; now left. }
    rewrite Hv in Hin; exact Hin.
  - intros Hall.
    destruct (vocabulary documents) as [|t V] eqn:Hv; [reflexivity|exfalso].
    assert (Hin : In t (vocabulary documents)) by (rewrite Hv; now left).
    apply vocabulary_In in Hin; destruct Hin as (doc & Hdoc & Ht).
    rewrite Forall_forall in Hall; rewrite (Hall doc Hdoc) in Ht; exact Ht.
Qed.

(** A term of a document has a positive weight in its row. *)
Lemma weight_pos (documents : list string) (t doc : string) :
  In t (analyze doc) -> 0 < INR (term_count t doc) * idf documents t.
Proof.
  intros Hin; unfold term_count.
  apply (count_occ_In string_dec) in Hin.
  pose proof (idf_ge_1 documents t).
  assert (1 <= INR (count_occ string_dec (analyze doc) t)).
  { change 1 with (INR 1); apply le_INR; lia. }
  apply Rmult_lt_0_compat; lra.
Qed.

Lemma weight_nonneg (documents : list string) (t doc : string) :
  0 <= INR (term_count t doc) * idf documents t.
Proof.
  pose proof (idf_ge_1 documents t).
  pose proof (pos_INR (term_count t doc)).
  apply Rmult_le_pos; lra.
Qed.

(** The score is the plain dot product of the two rows of
    [fit_transform]. *)
Lemma resume_score_dot (documents : list string)
      (job_description resume : string) :
  resume_score documents job_description resume
  = dot (document_vector documents job_description)
        (document_vector documents resume).
Proof. unfold resume_score, document_vector; apply cosine_normalized. Qed.

Lemma resume_score_sum (documents : list string)
      (job_description resume : string) :
  resume_score documents job_description resume
  = sum (map (fun t =>
                normalized_column
                  (vocabulary documents)
                  (fun t => INR (term_count t job_description)
                            * idf documents t) t
                * normalized_column
                    (vocabulary documents)
                    (fun t => INR (term_count t resume) * idf documents t) t)
             (vocabulary documents)).
Proof.
  rewrite resume_score_dot; unfold document_vector, tfidf_row.
  now rewrite !normalize_map, dot_map_map.
Qed.

Lemma normalized_column_nonneg {A : Type} (V : list A) (f : A -> R) (t : A) :
  0 <= f t -> 0 <= normalized_column V f t.
Proof.
  intros Hf; unfold normalized_column.
  pose proof (scale_of_pos (map f V)).
  now apply Rle_mult_inv_pos.
Qed.

Lemma normalized_column_pos {A : Type} (V : list A) (f : A -> R) (t : A) :
  0 < f t -> 0 < normalized_column V f t.
Proof.
  intros Hf; unfold normalized_column.
  pose proof (scale_of_pos (map f V)).
  now apply Rdiv_lt_0_compat.
Qed.

Lemma resume_score_shared_term (documents : list string)
      (job_description resume t : string) :
  In job_description documents ->
  In t (analyze job_description) ->
  In t (analyze resume) ->
  0 < resume_score documents job_description resume.
Proof.
  intros Hdoc Hjd Hres; rewrite resume_score_sum.
  set (f := fun t => INR (term_count t job_description) * idf documents t).
  set (g := fun t => INR (term_count t resume) * idf documents t).
  apply (sum_pos _ (normalized_column (vocabulary documents) f t
                    * normalized_column (vocabulary documents) g t)).
  - apply Forall_map, Forall_forall; intros u _.
    apply Rmult_le_pos; apply normalized_column_nonneg;
      apply weight_nonneg.
  - apply (in_map (fun t => normalized_column (vocabulary documents) f t
                            * normalized_column (vocabulary documents) g t)).
    apply vocabulary_In; eauto.
  - apply Rmult_lt_0_compat; apply normalized_column_pos;
      now apply weight_pos.
Qed.

End RankerExtras.

Section RankerExtraClaims.

Context {analyzer : Analyzer}.

Local Open Scope R_scope.

(** X10.  When the ranker returns, the score of a resume is positive
    exactly when the resume and the job description share a term. *)
Theorem score_positive_iff_shared_term (job_description : string)
        (resumes : list string) (scores : vector) (i : nat) :
  rank_resumes job_description resumes = Ok scores ->
  (i < List.length resumes)%nat ->
  (0 < nth i scores 0
   <-> exists t, In t (analyze job_description)
                 /\ In t (analyze (nth i resumes EmptyString))).
Proof.
  intros Hok Hi; apply rank_resumes_ok_inv in Hok.
  destruct Hok as (_ & _ & ->).
  rewrite (nth_indep _ 0 (resume_score (job_description :: resumes)
                                       job_description EmptyString))
    by (rewrite length_map; exact Hi).
  rewrite map_nth.
  set (resume := nth i resumes EmptyString).
  split.
  - intros Hpos.
    destruct (Exists_dec (fun t => In t (analyze resume))
                         (analyze job_description)
                         (fun t => in_dec string_dec t (analyze resume)))
      as [Hex|Hno].
    + apply Exists_exists in Hex; exact Hex.
    + exfalso.
      rewrite resume_score_no_shared_term in Hpos; [lra|].
      intros t Hjd Hres; apply Hno, Exists_exists; eauto.
  - intros (t & Hjd & Hres).
    apply (resume_score_shared_term _ _ _ t); auto; now left.
Qed.

(** X11.  What decides whether the ranker returns: it raises the
    empty-vocabulary [ValueError] exactly when neither the job description
    nor any resume holds a term; otherwise it raises the no-samples
    [ValueError] exactly when the resume list is empty; otherwise it
    returns scores. *)
Theorem rank_resumes_outcomes (job_description : string)
        (resumes : list string) :
  (rank_resumes job_description resumes
   = Raise (ValueError msg_empty_vocabulary)
   <-> Forall (fun doc => analyze doc = []) (job_description :: resumes))
  /\ (rank_resumes job_description resumes = Raise (ValueError msg_no_samples)
      <-> resumes = [] /\ analyze job_description <> [])
  /\ ((exists scores, rank_resumes job_description resumes = Ok scores)
      <-> resumes <> []
          /\ exists doc, In doc (job_description :: resumes)
                         /\ analyze doc <> []).
Proof.
  rewrite rank_resumes_cases.
  assert (Hmsg : msg_empty_vocabulary <> msg_no_samples) by discriminate.
  pose proof (vocabulary_nil (job_description :: resumes)) as Hnil.
  destruct (vocabulary (job_description :: resumes)) as [|t V] eqn:Hv.
  - assert (Hall : Forall (fun doc => analyze doc = [])
                          (job_description :: resumes))
      by now apply Hnil.
    split; [split; auto|].
    split; [split|split].
    + intros [= Heq]; contradiction.
    + intros (_ & Hjd); exfalso; apply Hjd; now inversion Hall.
    + intros (scores & Hs); discriminate.
    + intros (_ & doc & Hdoc & Hne); exfalso; apply Hne.
      rewrite Forall_forall in Hall; now apply Hall.
  - assert (Hsome : exists doc, In doc (job_description :: resumes)
                                /\ analyze doc <> []).
    { assert (Hin : In t (vocabulary (job_description :: resumes)))
        by (rewrite Hv; now left).
      apply vocabulary_In in Hin; destruct Hin as (doc & Hdoc & Ht).
      exists doc; split; [assumption|]; intros Hnone.
      rewrite Hnone in Ht; exact Ht. }
    assert (Hnot : ~ Forall (fun doc => analyze doc = [])
                     (job_description :: resumes)).
    { intros Hall; apply Hnil in Hall; discriminate. }
    destruct resumes as [|r rest].
    + split; [split|].
      * intros [= Heq]; symmetry in Heq; contradiction.
      * intros Hall; contradiction.
      * split; [split|split].
        -- intros _; split; [reflexivity|].
           intros Hnone; apply Hnot; constructor; auto.
        -- reflexivity.
        -- intros (scores & Hs); discriminate.
        -- intros (Hne & _); now exfalso.
    + split; [split|].
      * discriminate.
      * intros Hall; contradiction.
      * split; [split|split].
        -- discriminate.
        -- intros (Hr & _); discriminate.
        -- intros _; split; [discriminate | assumption].
        -- intros _; eexists; reflexivity.
Qed.

End RankerExtraClaims.

Section TableExtraClaims.

Context {pdflib : PdfLibrary} {analyzer : Analyzer} {sorter : Sorter}.

Local Open Scope R_scope.

(** X12.  With a sort that meets the contract: the row numbered 1 of a
    displayed table carries a score the ranker returned, and no score the
    ranker returned is greater. *)
Theorem first_row_has_best_score (contract : SortContract sorter)
        (job_description : string) (files : list File)
        (results : list (nat * row)) :
  In (StDataframe results) (events (main job_description files)) ->
  exists (resume : string) (best : R) (rest : list (nat * row))
         (scores : vector),
    results = (1%nat, (resume, best)) :: rest
    /\ rank_resumes job_description (map text_of files) = Ok scores
    /\ In best scores
    /\ Forall (fun s => s <= best) scores.
Proof.
  intros Hin.
  destruct (main_shows_table _ _ _ Hin) as (Hall & Hne & Hv & -> & _).
  set (resumes := map text_of files) in *.
  set (scores := map (resume_score (job_description :: resumes)
                                   job_description) resumes).
  assert (Hlen : List.length (map name files) = List.length scores)
    by (unfold scores, resumes; now rewrite !length_map).
  pose proof (map_snd_combine_eq _ _ Hlen) as Hsnd.
  unfold results_table; fold scores.
  set (rows := combine (map name files) scores) in *.
  pose proof (sort_values_permutation rows) as Hperm.
  pose proof (sort_values_descending rows) as Hsorted.
  assert (Hscores : Permutation scores (map snd (sort_values rows)))
    by (rewrite <- Hsnd; now apply Permutation_map).
  destruct (sort_values rows) as [|[resume best] sorted] eqn:Hs.
  - exfalso; apply Permutation_sym, Permutation_nil in Hscores.
    unfold scores, resumes in Hscores.
    destruct files; [congruence | discriminate].
  - exists resume, best, (combine (seq 2 (List.length sorted)) sorted), scores.
    split; [reflexivity|].
    split.
    { apply rank_resumes_scores; [|assumption].
      unfold resumes; destruct files; [congruence | discriminate]. }
    split.
    + apply (Permutation_in _ (Permutation_sym Hscores)); now left.
    + apply (Permutation_Forall (Permutation_sym Hscores)).
      apply StronglySorted_inv in Hsorted; destruct Hsorted as (_ & Hhd).
      simpl; constructor; [apply Rle_refl|].
      apply Forall_map; eapply Forall_impl; [|exact Hhd].
      intros [n s]; unfold descending, Score; simpl; lra.
Qed.

End TableExtraClaims.

(** ** More concrete runs *)

Section MoreConcreteRuns.

Local Open Scope R_scope.

(** X1 on two usable uploads. *)
Lemma ranker_called_on_checked_input_witness :
  In (RankCall developer ["python engineer"; "graphic designer"]%string)
     (events (run stable_sorter developer [cv_a; cv_c]))
  /\ Forall (@usable uploads) [cv_a; cv_c].
Proof.
  assert (Hrun := @main_success
                    uploads default_analyzer stable_sorter developer
                    [cv_a; cv_c] eq_refl
                    ltac:(discriminate)
                    ltac:(repeat constructor)
                    ltac:(vm_compute; discriminate)).
  assert (Hin : In (RankCall developer
                             ["python engineer"; "graphic designer"]%string)
                   (events (run stable_sorter developer [cv_a; cv_c]))).
  { unfold run; rewrite Hrun.
    apply in_or_app; right; left; reflexivity. }
  split; [exact Hin|].
  exact (proj1 (proj2 (proj2 (@ranker_called_on_checked_input
                                uploads default_analyzer stable_sorter
                                _ _ _ _ Hin)))).
Defined.

(** X2 on texts without a token. *)
Lemma main_raises_only_on_empty_vocabulary_witness :
  exists e, outcome (run stable_sorter "C" [pdf "cv.pdf" "C"]) = Raise e.
Proof.
  apply (proj2 (@main_raises_only_on_empty_vocabulary
                  uploads default_analyzer stable_sorter
                  "C"%string [pdf "cv.pdf" "C"])).
  repeat split; try reflexivity; try discriminate.
  repeat constructor.
Defined.

(** X4 on a batch whose second upload has one page without text. *)
Lemma textless_pdf_rejected_without_cause_witness :
  run stable_sorter developer [cv_a; cv_scan; cv_c]
  = ([PdfReaderCall cv_a; PdfReaderCall cv_scan;
      StError msg_batch_failed], Ok tt).
Proof.
  exact (@textless_pdf_rejected_without_cause
           uploads default_analyzer stable_sorter developer
           [cv_a] cv_scan [cv_c] [Ok EmptyString]
           eq_refl ltac:(repeat constructor) eq_refl
           ltac:(repeat constructor)).
Defined.

(** X5 on a batch whose second upload does not parse. *)
Lemma failing_pdf_reports_cause_witness :
  run stable_sorter developer [cv_a; cv_b; cv_c]
  = ([PdfReaderCall cv_a; PdfReaderCall cv_b;
      StError "Error reading PDF: EOF marker not found";
      StError msg_batch_failed], Ok tt).
Proof.
  exact (@failing_pdf_reports_cause
           uploads default_analyzer stable_sorter developer
           [cv_a] cv_b [cv_c] (PdfError "EOF marker not found")
           eq_refl ltac:(repeat constructor) (or_introl eq_refl)).
Defined.

(** X10 on two resumes, the first of which shares a term with the job
    description. *)
Lemma score_positive_iff_shared_term_witness :
  exists scores,
    @rank_resumes default_analyzer developer
                  ["python engineer"; "graphic designer"]%string
    = Ok scores
    /\ 0 < nth 0 scores 0.
Proof.
  assert (Hok := @rank_resumes_scores
                   default_analyzer developer
                   ["python engineer"; "graphic designer"]%string
                   ltac:(discriminate) ltac:(vm_compute; discriminate)).
  eexists; split; [exact Hok|].
  apply (@score_positive_iff_shared_term
           default_analyzer developer
           ["python engineer"; "graphic designer"]%string _ 0%nat Hok).
  - simpl; lia.
  - exists "python"%string; split; vm_compute; auto.
Defined.

(** X12 on two uploads. *)
Lemma first_row_has_best_score_witness :
  exists (resume : string) (best : R) (rest : list (nat * row)),
    In (StDataframe ((1%nat, (resume, best)) :: rest))
       (events (run stable_sorter developer [cv_a; cv_c])).
Proof.
  assert (Hrun := @main_success
                    uploads default_analyzer stable_sorter developer
                    [cv_a; cv_c] eq_refl
                    ltac:(discriminate)
                    ltac:(repeat constructor)
                    ltac:(vm_compute; discriminate)).
  cbv zeta in Hrun.
  assert (Hin : In (StDataframe
                      (@results_table
                         default_analyzer stable_sorter developer
                         (map (@text_of uploads) [cv_a; cv_c])
                         (map (@name uploads) [cv_a; cv_c])))
                   (events (run stable_sorter developer [cv_a; cv_c]))).
  { unfold run; rewrite Hrun.
    apply in_or_app; right; right; right; left; reflexivity. }
  destruct (@first_row_has_best_score
              uploads default_analyzer stable_sorter
              stable_sorter_contract _ _ _ Hin)
    as (resume & best & rest & scores & Heq & _).
  exists resume, best, rest; rewrite <- Heq; exact Hin.
Defined.

End MoreConcreteRuns.

(** ** The successful run *)

Section SuccessClaims.

Context {pdflib : PdfLibrary} {analyzer : Analyzer} {sorter : Sorter}.

Lemma in_combine_names_scores (g : string -> R) (files : list File)
      (resume : string) (score : R) :
  In (resume, score)
     (combine (map name files) (map g (map text_of files))) ->
  exists file,
    In file files /\ resume = name file /\ score = g (text_of file).
Proof.
  induction files as [|f rest IH]; simpl; [intros []|].
  intros [[= <- <-]|Hin].
  - exists f; auto.
  - destruct (IH Hin) as (file & Hfile & Hn & Hs).
    exists file; auto.
Qed.

(** X13.  With a sort that only rearranges rows: every row of a displayed
    table belongs to an uploaded file; it carries that file's name and the
    score of that file's text against the job description in this
    batch. *)
Theorem table_rows_belong_to_files (contract : SortContract sorter)
        (job_description : string) (files : list File)
        (results : list (nat * row)) (index : nat) (resume : string)
        (score : R) :
  In (StDataframe results) (events (main job_description files)) ->
  In (index, (resume, score)) results ->
  exists file,
    In file files
    /\ resume = name file
    /\ score = resume_score (job_description :: map text_of files)
                            job_description (text_of file).
Proof.
  intros Hin Hrow.
  destruct (main_shows_table _ _ _ Hin) as (_ & _ & _ & -> & _).
  unfold results_table, reset_index in Hrow.
  apply in_combine_r in Hrow.
  apply (Permutation_in _ (Permutation_sym (sort_values_permutation _)))
    in Hrow.
  now apply in_combine_names_scores in Hrow.
Qed.

(** X14.  With a job description, at least one file, every file usable and
    a term in at least one of the texts, the run returns normally; what it
    logs of the ranking is exactly the ranker call on the texts in upload
    order, the header, the table, and the download button with the rows
    of the table; and it logs no error and no warning. *)
Theorem successful_run_log (job_description : string) (files : list File) :
  job_description <> EmptyString ->
  files <> [] ->
  Forall usable files ->
  (exists doc,
      In doc (job_description :: map text_of files) /\ analyze doc <> []) ->
  outcome (main job_description files) = Ok tt
  /\ ranking_events (events (main job_description files))
     = [RankCall job_description (map text_of files);
        StMarkdown msg_ranking_results;
        StDataframe (results_table job_description (map text_of files)
                                   (map name files));
        StDownloadButton
          (map snd (results_table job_description (map text_of files)
                                  (map name files)))
          "resume_ranking.csv"]
  /\ forall msg,
      ~ In (StError msg) (events (main job_description files))
      /\ ~ In (StWarning msg) (events (main job_description files)).
Proof.
  intros Hjd Hne Hall (doc & Hdoc & Htok).
  rewrite main_success; auto.
  - cbv zeta; unfold outcome, events; cbn [fst snd].
    split; [reflexivity|split].
    + rewrite ranking_events_app.
      destruct (extraction_log_calls files) as (_ & -> & _).
      reflexivity.
    + rewrite (extraction_log_usable files Hall).
      intros msg; split; intros Hin; apply in_app_or in Hin;
        destruct Hin as [Hin|Hin];
        try (apply in_map_iff in Hin; destruct Hin as (f & Hf & _);
             discriminate);
        simpl in Hin; decompose [or] Hin; try discriminate; auto.
  - destruct job_description; [congruence | reflexivity].
  - intros Hv; apply vocabulary_nil in Hv.
    rewrite Forall_forall in Hv; apply Htok; now apply Hv.
Qed.

End SuccessClaims.

Lemma first_row_exists (results : list (nat * row)) :
  results <> [] ->
  exists index resume score, In (index, (resume, score)) results.
Proof.
  destruct results as [|[index [resume score]] rest]; [congruence|].
  intros _; exists index, resume, score; now left.
Qed.

Section SuccessRuns.

(** X13 on two uploads: the row numbered 1. *)
Lemma table_rows_belong_to_files_witness :
  exists (resume : string) (score : R) (file : upload),
    In file [cv_a; cv_c] /\ resume = upload_name file
    /\ score = @resume_score default_analyzer
                             [developer; "python engineer";
                              "graphic designer"]%string
                             developer (@text_of uploads file).
Proof.
  assert (Hrun := @main_success
                    uploads default_analyzer stable_sorter developer
                    [cv_a; cv_c] eq_refl
                    ltac:(discriminate)
                    ltac:(repeat constructor)
                    ltac:(vm_compute; discriminate)).
  cbv zeta in Hrun.
  set (results := @results_table
                    default_analyzer stable_sorter developer
                    (map (@text_of uploads) [cv_a; cv_c])
                    (map (@name uploads) [cv_a; cv_c])) in *.
  assert (Hin : In (StDataframe results)
                   (events (@main uploads default_analyzer stable_sorter
                                  developer [cv_a; cv_c]))).
  { rewrite Hrun.
    apply in_or_app; right; right; right; left; reflexivity. }
  destruct (@first_row_exists results) as (index & resume & score & Hrow).
  { unfold results, results_table, reset_index.
    intros Hnil; apply (f_equal (@List.length _)) in Hnil.
    rewrite length_combine, length_seq, Nat.min_id in Hnil.
    rewrite <- (Permutation_length
                  (@sort_values_permutation
                     stable_sorter stable_sorter_contract _)) in Hnil.
    discriminate. }
  destruct (@table_rows_belong_to_files
              uploads default_analyzer stable_sorter stable_sorter_contract
              developer [cv_a; cv_c] results index resume score Hin Hrow)
    as (file & Hfile & Hname & Hscore).
  exists resume, score, file; repeat split; assumption.
Defined.

(** X14 on two uploads. *)
Lemma successful_run_log_witness :
  outcome (run numpy_sorter developer [cv_a; cv_c]) = Ok tt
  /\ List.length
       (ranking_events (events (run numpy_sorter developer [cv_a; cv_c])))
     = 4%nat.
Proof.
  assert (Htoken : exists doc,
             In doc (developer :: map (@text_of uploads) [cv_a; cv_c])
             /\ @analyze default_analyzer doc <> []).
  { exists developer; split; [now left|].
    change (@analyze default_analyzer developer)
      with ["python"; "developer"]%string.
    discriminate. }
  destruct (@successful_run_log
              uploads default_analyzer numpy_sorter developer
              [cv_a; cv_c]
              ltac:(discriminate) ltac:(discriminate)
              ltac:(repeat constructor) Htoken)
    as (Hout & Hlog & _).
  split; [exact Hout | exact (f_equal (@List.length _) Hlog)].
Defined.

End SuccessRuns.
